(** * HttpMonitor request chaining (api/v1alpha1/httpmonitor_utils.go)

    A shallow embedding of the request-chaining engine of the monitoring
    controller: template substitution, request construction, response
    validation, the monitoring and cleanup loops of [executeRequests], and
    the start/stop life cycle of the periodic worker.

    Go strings are [string], Go [int] is [Z], a Go [map[string]T] is a
    [gmap string T] together with the order in which a [range] statement
    happens to enumerate it, and a Go [error] result is a sum type.  A
    method with a pointer receiver returns the updated value.  The
    variable store is a slice of pointers to variables; the variables of
    a request are written only while that request is executed, and
    distinct requests hold distinct variables (each is decoded on its
    own), so the store is modelled by the values its variables hold when
    it is read. *)

From Stdlib Require Import ZArith Ascii String List Lia DecimalString HexadecimalString.
From stdpp Require Import base option list gmap strings sorting.

Local Open Scope Z_scope.

(** ** Go's [strings] package: the part the engine uses *)

Module GoStrings.

(** [strings.HasPrefix(s, prefix)]. *)
Fixpoint HasPrefix (s prefix : string) : bool :=
  match prefix with
  | EmptyString => true
  | String p prefix' =>
      match s with
      | EmptyString => false
      | String c s' => if Ascii.eqb c p then HasPrefix s' prefix' else false
      end
  end.

(** [strings.Contains(s, substr)]. *)
Fixpoint Contains (s substr : string) : bool :=
  if HasPrefix s substr then true
  else match s with
       | EmptyString => false
       | String _ s' => Contains s' substr
       end.

(** A [*strings.Replacer] is determined by the (old, new) pairs it was
    built from, in argument order. *)
Definition Replacer : Type := list (string * string).

(** [strings.NewReplacer(oldnew...)], with the arguments already paired
    (an odd number of arguments panics in Go; the pairing excludes it). *)
Definition NewReplacer (oldnew : list (string * string)) : Replacer := oldnew.

(** The match the replacer finds at the head of [s]: comparisons are done
    in argument order, so the first pair whose old string is a prefix
    wins.  [ignoreRoot] excludes the empty old string, as the generic
    replacer does right after an empty match. *)
Fixpoint lookup (r : Replacer) (ignoreRoot : bool) (s : string)
  : option (string * string) :=
  match r with
  | [] => None
  | (old, new) :: r' =>
      if HasPrefix s old && negb (ignoreRoot && String.eqb old EmptyString)
      then Some (old, new)
      else lookup r' ignoreRoot s
  end.

(** [Replacer.Replace]: one left-to-right pass over [s] without
    overlapping matches.  [skip] counts the bytes of the current match
    that are still to be stepped over; the text written for a match is
    never looked at again. *)
Fixpoint Replace_from (r : Replacer) (skip : nat) (s : string) : string :=
  match skip with
  | S k =>
      match s with
      | EmptyString => EmptyString
      | String _ s' => Replace_from r k s'
      end
  | O =>
      let advance :=
        match s with
        | EmptyString => EmptyString
        | String c s' => String c (Replace_from r 0 s')
        end in
      let consume (old new : string) :=
        new +:+ match s with
                | EmptyString => EmptyString
                | String _ s' => Replace_from r (String.length old - 1) s'
                end in
      match lookup r false s with
      | None => advance
      | Some (old, new) =>
          if String.eqb old EmptyString
          then new +:+ match lookup r true s with
                       | None => advance
                       | Some (old', new') => consume old' new'
                       end
          else consume old new
      end
  end.

Definition Replace (r : Replacer) (s : string) : string := Replace_from r 0 s.

End GoStrings.

(** ** Go's [net/url]: query strings *)

Module NetUrl.

(** A parsed [*url.URL].  The engine only touches the query string, so
    scheme, authority and path stay together, as written, in [Rest]. *)
Record URL : Type := mkURL {
  Rest : string;
  ForceQuery : bool;
  RawQuery : string;
  Fragment : string
}.

(** [strings.Cut(s, sep)] for a one-byte separator. *)
Fixpoint Cut (s : string) (sep : ascii) : string * string * bool :=
  match s with
  | EmptyString => (EmptyString, EmptyString, false)
  | String c s' =>
      if Ascii.eqb c sep then (EmptyString, s', true)
      else let '(before, after, found) := Cut s' sep in
           (String c before, after, found)
  end.

Definition isCTLByte (c : ascii) : bool :=
  (nat_of_ascii c <? 32)%nat || (nat_of_ascii c =? 127)%nat.

Fixpoint stringContainsCTLByte (s : string) : bool :=
  match s with
  | EmptyString => false
  | String c s' => isCTLByte c || stringContainsCTLByte s'
  end.

(** [url.Parse]: the fragment is cut off at the first [#], a control
    byte is an error, and the query is cut off at the first [?]; a lone
    trailing [?] sets [ForceQuery].  The other parse errors (scheme,
    host and escape syntax) are not modelled. *)
Definition Parse (rawURL : string) : option URL :=
  let '(u, frag, _) := Cut rawURL "#" in
  if stringContainsCTLByte u then None
  else
    let '(rest, query, found) := Cut u "?" in
    if found && String.eqb query EmptyString
    then Some (mkURL rest true EmptyString frag)
    else Some (mkURL rest false query frag).

(** [URL.String], on the fields kept here. *)
Definition URL_String (u : URL) : string :=
  Rest u
  +:+ (if ForceQuery u || negb (String.eqb (RawQuery u) EmptyString)
       then String "?" (RawQuery u) else EmptyString)
  +:+ (if String.eqb (Fragment u) EmptyString
       then EmptyString else String "#" (Fragment u)).

(** [url.Values] is [map[string][]string]. *)
Abbreviation Values := (gmap string (list string)).

(** [Values.Add]: [v[key] = append(v[key], value)]. *)
Definition Add (v : Values) (key value : string) : Values :=
  <[key := default [] (v !! key) ++ [value]]> v.

Definition isAlnum (c : ascii) : bool :=
  let n := nat_of_ascii c in
  ((97 <=? n) && (n <=? 122) || (65 <=? n) && (n <=? 90)
   || (48 <=? n) && (n <=? 57))%nat.

(** [shouldEscape(c, encodeQueryComponent)]. *)
Definition shouldEscape (c : ascii) : bool :=
  if isAlnum c then false
  else if Ascii.eqb c "-" || Ascii.eqb c "_" || Ascii.eqb c "."
          || Ascii.eqb c "~"
  then false
  else true.

Definition upperhex (n : nat) : ascii :=
  nth n (list_ascii_of_string "0123456789ABCDEF") "0"%char.

(** [url.QueryEscape]. *)
Fixpoint QueryEscape (s : string) : string :=
  match s with
  | EmptyString => EmptyString
  | String c s' =>
      if Ascii.eqb c " " then String "+" (QueryEscape s')
      else if shouldEscape c
      then String "%" (String (upperhex (nat_of_ascii c / 16))
             (String (upperhex (nat_of_ascii c mod 16)) (QueryEscape s')))
      else String c (QueryEscape s')
  end.

(** [Values.Encode]: the keys in sorted order, every value of a key in
    its order, pairs joined by [&]. *)
Definition Encode (v : Values) : string :=
  if decide (size v = 0%nat) then EmptyString
  else
    foldl (fun buf k =>
             let vs := default [] (v !! k) in
             let keyEscaped := QueryEscape k in
             foldl (fun buf x =>
                      (if String.eqb buf EmptyString then buf
                       else buf +:+ "&")
                      +:+ keyEscaped +:+ "=" +:+ QueryEscape x)
                   buf vs)
          EmptyString (merge_sort String.le (elements (dom v))).

End NetUrl.

(** ** Go's [net/http] and [net/textproto]: headers and requests *)

Module NetHttp.
Import NetUrl.

(** [textproto.validHeaderFieldByte], the RFC 7230 token bytes; it is
    also [httpguts.IsTokenRune] on bytes. *)
Definition validHeaderFieldByte (c : ascii) : bool :=
  isAlnum c
  || existsb (Ascii.eqb c) (list_ascii_of_string "!#$%&'*+-.^_`|~").

Definition isLower (c : ascii) : bool :=
  ((97 <=? nat_of_ascii c) && (nat_of_ascii c <=? 122))%nat.
Definition isUpper (c : ascii) : bool :=
  ((65 <=? nat_of_ascii c) && (nat_of_ascii c <=? 90))%nat.

(** The rewriting loop of [canonicalMIMEHeaderKey]: upper case at the
    start and after each dash, lower case elsewhere. *)
Fixpoint canonicalBytes (upper : bool) (a : string) : string :=
  match a with
  | EmptyString => EmptyString
  | String c a' =>
      let c' :=
        if upper && isLower c then ascii_of_nat (nat_of_ascii c - 32)
        else if negb upper && isUpper c
             then ascii_of_nat (nat_of_ascii c + 32)
             else c in
      String c' (canonicalBytes (Ascii.eqb c' "-") a')
  end.

Fixpoint allBytes (p : ascii -> bool) (s : string) : bool :=
  match s with
  | EmptyString => true
  | String c s' => p c && allBytes p s'
  end.

(** [textproto.canonicalMIMEHeaderKey]: a key with a byte that is not a
    token byte is returned unchanged (a space too: [noCanon]). *)
Definition canonicalMIMEHeaderKey (a : string) : string :=
  if allBytes validHeaderFieldByte a then canonicalBytes true a else a.

(** [textproto.CanonicalMIMEHeaderKey]: the quick check returns [s] when
    it meets a byte that is not a token byte or reaches the end, and
    canonicalises at the first byte of the wrong case. *)
Fixpoint CanonicalMIMEHeaderKey_from (s : string) (upper : bool)
         (rest : string) : string :=
  match rest with
  | EmptyString => s
  | String c rest' =>
      if negb (validHeaderFieldByte c) then s
      else if upper && isLower c then canonicalMIMEHeaderKey s
      else if negb upper && isUpper c then canonicalMIMEHeaderKey s
      else CanonicalMIMEHeaderKey_from s (Ascii.eqb c "-") rest'
  end.

Definition CanonicalMIMEHeaderKey (s : string) : string :=
  CanonicalMIMEHeaderKey_from s true s.

(** [http.Header] is [map[string][]string]. *)
Abbreviation Header := (gmap string (list string)).

(** [Header.Add]: the key is canonicalised, the value appended. *)
Definition Header_Add (h : Header) (key value : string) : Header :=
  let key := CanonicalMIMEHeaderKey key in
  <[key := default [] (h !! key) ++ [value]]> h.

(** [http.validMethod]. *)
Definition validMethod (method : string) : bool :=
  negb (String.eqb method EmptyString) && allBytes validHeaderFieldByte method.

(** The fields of [*http.Request] the engine sets. *)
Record Request : Type := mkRequest {
  req_Method : string;
  req_URL : URL;
  req_Header : Header;
  req_Body : string
}.

(** Why [http.NewRequest] fails. *)
Inductive NewRequestFailure : Type :=
| InvalidMethod (method : string)
| InvalidURL (url : string).

(** [http.NewRequest(method, url, body)]: an empty method means GET; an
    invalid method or an unparsable URL is an error; the new request has
    an empty header map. *)
Definition NewRequest (method url body : string)
  : NewRequestFailure + Request :=
  let method := if String.eqb method EmptyString then "GET" else method in
  if negb (validMethod method) then inl (InvalidMethod method)
  else match Parse url with
       | None => inl (InvalidURL url)
       | Some u => inr (mkRequest method u ∅ body)
       end.

(** The fields of [*http.Response] the engine reads. *)
Record Response : Type := mkResponse {
  StatusCode : Z;
  resp_Header : Header;
  resp_Body : string
}.

End NetHttp.

(** ** The request executor and the chain runner (package [v1alpha1]) *)

Module v1alpha1.
Import GoStrings NetUrl NetHttp.

(** The errors [HttpRequest.Do] returns, by the call or statement that
    makes them: [http.NewRequest], [time.ParseDuration], [client.Do], the
    two checks of [handleResponse], and [ParseFromResponse]. *)
Inductive error : Type :=
| NewRequestError (why : NewRequestFailure)
| ParseDurationError (timeout : string)
| TransportError (msg : string)
| NilResponseError
| UnexpectedStatusError (code : Z) (expected : list Z)
| ExtractionError (name : string).

(** [%d] of an [int]. *)
Definition fmt_d (n : Z) : string :=
  DecimalString.NilEmpty.string_of_int (Z.to_int n).

(** [%x] of an [int]. *)
Definition fmt_x (n : Z) : string :=
  HexadecimalString.NilEmpty.string_of_int (Z.to_hex_int n).

Fixpoint join (sep : string) (l : list string) : string :=
  match l with
  | [] => EmptyString
  | [x] => x
  | x :: l' => x +:+ sep +:+ join sep l'
  end.

(** [%x] of an [[]int]: the elements in hexadecimal, in brackets. *)
Definition fmt_x_slice (l : list Z) : string :=
  "[" +:+ join " " (fmt_x <$> l) +:+ "]".

(** [err.Error()] of the two errors whose text this file writes; the
    text of the others is written where they are made. *)
Definition Error (e : error) : option string :=
  match e with
  | NilResponseError => Some "got nil response object"
  | UnexpectedStatusError code expected =>
      Some ("not an expected error code: " +:+ fmt_d code +:+ " is not in "
            +:+ fmt_x_slice expected)
  | _ => None
  end.

(** *** Variables

    [Variable], [VariableList] and their methods are declared in the
    types file of the package; this file builds [Variable] values with
    the fields [Name], [From] and [Value] and calls the methods. *)
Module Var.

(** Modelled from the spec: an extraction rule names where in a
    response a variable's value is found, a header name or a body
    path. *)
Inductive ExtractionRule : Type :=
| HeaderName (name : string)
| BodyPath (path : string).

(** Modelled from the spec: the origin of a variable, provided by the
    configuration ([FromTypeProvided], as the source has it) or
    extracted from a response by a rule. *)
Inductive FromType : Type :=
| FromTypeProvided
| FromTypeResponse (rule : ExtractionRule).

Record t : Type := mk {
  Name : string;
  From : FromType;
  Value : string
}.

Definition setValue (v : t) (x : string) : t := mk (Name v) (From v) x.

End Var.

Abbreviation VariableList := (list Var.t).

(** The methods of [VariableList] and [Variable] that this file calls and
    does not define.  A method that updates variables in place returns
    them. *)
Record VariableMethods : Type := mkMethods {
  newReplacer : VariableList -> Replacer;
  clearValues : VariableList -> VariableList;
  ParseFromResponse : Var.t -> Response -> Var.t * option error
}.

Module HttpRequest.
Record t : Type := mk {
  Name : string;
  Method : string;
  Url : string;
  Headers : Header;
  Body : string;
  QueryParams : Values;
  ExpectedResponseCodes : list Z;
  Timeout : string;
  VariablesFromResponse : VariableList;
  availableVariables : VariableList
}.

Definition setVariablesFromResponse (r : t) (vs : VariableList) : t :=
  mk (Name r) (Method r) (Url r) (Headers r) (Body r) (QueryParams r)
     (ExpectedResponseCodes r) (Timeout r) vs (availableVariables r).

Definition setAvailableVariables (r : t) (vs : VariableList) : t :=
  mk (Name r) (Method r) (Url r) (Headers r) (Body r) (QueryParams r)
     (ExpectedResponseCodes r) (Timeout r) (VariablesFromResponse r) vs.
End HttpRequest.
Import HttpRequest.

Record HttpMonitorSpec : Type := mkSpec {
  Period : Z;
  Variables : gmap string string;
  Requests : list HttpRequest.t;
  Cleanup : list HttpRequest.t
}.

(** What the logger receives. *)
Inductive LogEntry : Type :=
| LogInfo (level : Z) (msg name : string)
| LogError (err : error) (msg name : string).

(** What the engine runs against: the HTTP client with the outside
    world it talks to ([client_Do] is [client.Do] under the deadline of
    the timeout: the new world and an error text or a response),
    [time.ParseDuration], and the order in which [range] enumerates a map
    (any order, but every entry once). *)
Record Env : Type := mkEnv {
  World : Type;
  client_Do : World -> Request -> Z -> World * (string + Response);
  ParseDuration : string -> option Z;
  rangeVariables : gmap string string -> list (string * string);
  rangeVariables_perm : forall m, rangeVariables m ≡ₚ map_to_list m;
  rangeValues : gmap string (list string) -> list (string * list string);
  rangeValues_perm : forall m, rangeValues m ≡ₚ map_to_list m
}.

(** [containsInt]. *)
Fixpoint containsInt (needle : Z) (haystay : list Z) : bool :=
  match haystay with
  | [] => false
  | val :: haystay' =>
      if val =? needle then true else containsInt needle haystay'
  end.

Section Engine.
Context (E : Env) (M : VariableMethods).

(** [replaceQueryParams]. *)
Definition replaceQueryParams (v : Values) (replacer : Replacer) : Values :=
  if decide (size v = 0%nat) then v
  else
    foldl (fun newValues kv =>
             foldl (fun newValues x =>
                      Add newValues (fst kv) (Replace replacer x))
                   newValues (snd kv))
          ∅ (rangeValues E v).

(** [replaceHeader]. *)
Definition replaceHeader (v : Header) (replacer : Replacer) : Header :=
  if decide (size v = 0%nat) then v
  else
    foldl (fun newHeaders kv =>
             foldl (fun newHeaders x =>
                      Header_Add newHeaders (fst kv) (Replace replacer x))
                   newHeaders (snd kv))
          ∅ (rangeValues E v).

(** [HttpRequest.BuildRequest]. *)
Definition BuildRequest (r : HttpRequest.t) : error + Request :=
  let replacer := newReplacer M (availableVariables r) in
  let finalUrl := Replace replacer (Url r) in
  let body := Replace replacer (Body r) in
  let query := replaceQueryParams (QueryParams r) replacer in
  let header := replaceHeader (Headers r) replacer in
  match NewRequest (Method r) finalUrl body with
  | inl why => inl (NewRequestError why)
  | inr req =>
      let u := req_URL req in
      inr (mkRequest (req_Method req)
             (mkURL (Rest u) (ForceQuery u) (Encode query) (Fragment u))
             header (req_Body req))
  end.

(** The extraction loop of [handleResponse]: the variables are parsed
    in order and in place; the first failure returns, and the
    variables after it are not looked at. *)
Fixpoint parseVariables (vs : VariableList) (resp : Response)
  : VariableList * option error :=
  match vs with
  | [] => ([], None)
  | variable :: vs' =>
      match ParseFromResponse M variable resp with
      | (variable', Some err) => (variable' :: vs', Some err)
      | (variable', None) =>
          let '(vs'', err) := parseVariables vs' resp in
          (variable' :: vs'', err)
      end
  end.

(** [handleResponse] after the status check. *)
Definition extractVariables (r : HttpRequest.t) (resp : Response)
  : HttpRequest.t * option error :=
  if decide (length (VariablesFromResponse r) = 0%nat)
  then (r, None)
  else
    let '(vs, err) := parseVariables (VariablesFromResponse r) resp in
    (setVariablesFromResponse r vs, err).

(** [HttpRequest.handleResponse]. *)
Definition handleResponse (r : HttpRequest.t) (resp : option Response)
  : HttpRequest.t * option error :=
  match resp with
  | None => (r, Some NilResponseError)
  | Some resp =>
      if negb (containsInt (StatusCode resp) (ExpectedResponseCodes r))
      then (r, Some (UnexpectedStatusError (StatusCode resp)
                       (ExpectedResponseCodes r)))
      else extractVariables r resp
  end.

(** [HttpRequest.Do]. *)
Definition Do (r : HttpRequest.t) (w : World E)
  : World E * HttpRequest.t * option error :=
  match BuildRequest r with
  | inl err => (w, r, Some err)
  | inr req =>
      match ParseDuration E (Timeout r) with
      | None => (w, r, Some (ParseDurationError (Timeout r)))
      | Some timeoutDuration =>
          match client_Do E w req timeoutDuration with
          | (w', inl msg) => (w', r, Some (TransportError msg))
          | (w', inr resp) =>
              let '(r', err) := handleResponse r (Some resp) in
              (w', r', err)
          end
      end
  end.

(** The state one tick threads through its requests:
    [availableVariables] is the store, [world] what the client talks
    to, [log] what the logger has received. *)
Record RunState : Type := mkRunState {
  world : World E;
  log : list LogEntry;
  store : VariableList
}.

(** A request as it was executed, with the store it was given and the
    values it parsed, and the error [Do] returned. *)
Record Step : Type := mkStep {
  request : HttpRequest.t;
  err : option error
}.

(** The variables every request of a tick may use. *)
Definition seedVariables (h : HttpMonitorSpec) : VariableList :=
  foldl (fun availableVariables kv =>
           availableVariables
           ++ [Var.mk (fst kv) Var.FromTypeProvided (snd kv)])
        [Var.mk "random-8" Var.FromTypeProvided "12345678"]
        (rangeVariables E (Variables h)).

(** The head of both loop bodies: the values of the request's own
    variables are cleared and the store is attached. *)
Definition attach (httpRequest : HttpRequest.t)
           (availableVariables : VariableList) : HttpRequest.t :=
  setAvailableVariables
    (setVariablesFromResponse httpRequest
       (clearValues M (VariablesFromResponse httpRequest)))
    availableVariables.

(** The "run requests" loop of [executeRequests]. *)
Fixpoint runRequests (requests : list HttpRequest.t) (st : RunState)
  : list Step * RunState :=
  match requests with
  | [] => ([], st)
  | httpRequest :: requests' =>
      let name := Name httpRequest in
      let log1 := log st ++ [LogInfo 2 "executing request" name] in
      let '(w, r, err) := Do (attach httpRequest (store st)) (world st) in
      match err with
      | Some e =>
          ([mkStep r err],
           mkRunState w
             (log1 ++ [LogError e "failed to complete request" name])
             (store st))
      | None =>
          let availableVariables :=
            if decide (0 < length (VariablesFromResponse r))%nat
            then store st ++ VariablesFromResponse r
            else store st in
          let '(steps, st') :=
            runRequests requests' (mkRunState w log1 availableVariables) in
          (mkStep r err :: steps, st')
      end
  end.

(** The "run cleanup" loop of [executeRequests]. *)
Fixpoint runCleanup (requests : list HttpRequest.t) (st : RunState)
  : list Step * RunState :=
  match requests with
  | [] => ([], st)
  | httpRequest :: requests' =>
      let name := Name httpRequest in
      let log1 := log st ++ [LogInfo 2 "executing cleanup request" name] in
      let '(w, r, err) := Do (attach httpRequest (store st)) (world st) in
      let log2 :=
        match err with
        | Some e =>
            log1 ++ [LogError e "failed to complete cleanup request" name]
        | None => log1
        end in
      let '(steps, st') :=
        runCleanup requests' (mkRunState w log2 (store st)) in
      (mkStep r err :: steps, st')
  end.

(** One tick: what each chain executed, the state between the chains
    and the state at the end. *)
Record Run : Type := mkRun {
  monitoring : list Step;
  afterMonitoring : RunState;
  cleanup : list Step;
  final : RunState
}.

(** [HttpMonitor.executeRequests]. *)
Definition executeRequests (h : HttpMonitorSpec) (w : World E)
           (logger : list LogEntry) : Run :=
  let availableVariables := seedVariables h in
  let '(steps, st) :=
    runRequests (Requests h) (mkRunState w logger availableVariables) in
  let '(csteps, st') := runCleanup (Cleanup h) st in
  mkRun steps st csteps st'.

End Engine.

(** *** The methods of the types file, from the specification *)
Module SpecModel.

(** Modelled from the spec: the placeholder token of a variable name,
    [{{name}}]. *)
Definition placeholder (name : string) : string :=
  "{{" +:+ name +:+ "}}".

(** Modelled from the spec: [VariableList.newReplacer] is missing from
    the sources; it builds one multi-pattern literal replacer for the
    whole store.  A later variable of the same name shadows an earlier
    one, so the pairs are handed to [strings.NewReplacer] latest
    first. *)
Definition newReplacer (v : VariableList) : Replacer :=
  NewReplacer
    ((fun x => (placeholder (Var.Name x), Var.Value x)) <$> reverse v).

(** Modelled from the spec: [VariableList.clearValues] is missing from
    the sources; it clears the values a previous run left on the
    variables of a request. *)
Definition clearValues (v : VariableList) : VariableList :=
  (fun x => Var.setValue x EmptyString) <$> v.

(** Modelled from the spec: how a rule locates its value, which the
    missing [ParseFromResponse] does.  A header rule reads the first
    value of that header, a body rule applies [bodyPath] to the body;
    [None] when the value cannot be located. *)
Definition locate (bodyPath : string -> string -> option string)
           (rule : Var.ExtractionRule) (resp : Response) : option string :=
  match rule with
  | Var.HeaderName name =>
      match resp_Header resp !! CanonicalMIMEHeaderKey name with
      | Some (x :: _) => Some x
      | _ => None
      end
  | Var.BodyPath path => bodyPath path (resp_Body resp)
  end.

(** Modelled from the spec: [Variable.ParseFromResponse] is missing
    from the sources; it stores the located value in the variable and
    fails when the rule cannot locate it; a variable without a rule
    has nothing to extract. *)
Definition ParseFromResponse (bodyPath : string -> string -> option string)
           (v : Var.t) (resp : Response) : Var.t * option error :=
  match Var.From v with
  | Var.FromTypeProvided => (v, None)
  | Var.FromTypeResponse rule =>
      match locate bodyPath rule resp with
      | Some x => (Var.setValue v x, None)
      | None => (v, Some (ExtractionError (Var.Name v)))
      end
  end.

Definition methods (bodyPath : string -> string -> option string)
  : VariableMethods :=
  mkMethods newReplacer clearValues (ParseFromResponse bodyPath).

End SpecModel.

End v1alpha1.

(** ** The scheduler: [Start], [Stop] and the worker goroutine *)

Module Scheduler.
Import v1alpha1.

(** A call either panics or returns. *)
Inductive Outcome (A : Type) : Type :=
| Panic (msg : string)
| Return (a : A).
Arguments Panic {A} msg.
Arguments Return {A} a.

(** The channel of a ticker: at most one buffered tick.  A [for range]
    over a channel ends only when the channel is closed and drained. *)
Record Chan : Type := mkChan {
  buffered : nat;
  closed : bool
}.

(** [time.Ticker]. *)
Record Ticker : Type := mkTicker {
  active : bool;
  C : Chan
}.

(** [time.NewTicker(d)] panics unless [d] is positive. *)
Definition NewTicker (d : Z) : Outcome Ticker :=
  if d <=? 0 then Panic "non-positive interval for NewTicker"
  else Return (mkTicker true (mkChan 0 false)).

(** [Ticker.Stop] turns the ticker off; it does not close the channel. *)
Definition Ticker_Stop (t : Ticker) : Ticker := mkTicker false (C t).

(** The timer firing: a tick is sent unless the ticker is off, and
    dropped when one is already buffered. *)
Definition Ticker_fire (t : Ticker) : Ticker :=
  if active t then mkTicker true (mkChan 1 (closed (C t))) else t.

(** The scheduler fields of [HttpMonitor]: [ticker] and [stopped] are nil
    until [Start]; [stopped] is the counter of the wait group. *)
Record HttpMonitor : Type := mkMonitor {
  Spec : HttpMonitorSpec;
  ticker : option Ticker;
  stopped : option nat
}.

(** The goroutine [Start] launches: blocked on the channel, inside
    [executeRequests], or returned (its deferred [Done] has run). *)
Inductive Worker : Type := Receiving | Executing | Finished.

(** [HttpMonitor.Start]: the updated monitor and the goroutine. *)
Definition Start (h : HttpMonitor) : Outcome (HttpMonitor * Worker) :=
  match ticker h with
  | Some _ => Panic "tried to start an already started HttpMonitor"
  | None =>
      match NewTicker (Period (Spec h)) with
      | Panic msg => Panic msg
      | Return t => Return (mkMonitor (Spec h) (Some t) (Some 1%nat), Receiving)
      end
  end.

(** The first statement of [HttpMonitor.Stop], [h.ticker.Stop()]; a nil
    ticker is a nil pointer dereference. *)
Definition Stop_ticker (h : HttpMonitor) : Outcome HttpMonitor :=
  match ticker h with
  | None => Panic "invalid memory address or nil pointer dereference"
  | Some t => Return (mkMonitor (Spec h) (Some (Ticker_Stop t)) (stopped h))
  end.

(** Where the caller of [Stop] is: it has not called yet, it is blocked
    in [h.stopped.Wait()], or [Stop] has returned. *)
Inductive StopCall : Type := NotCalled | Waiting | Returned.

Section Interleaving.
Context (E : Env) (M : VariableMethods).

(** A started monitor, its worker, the caller of [Stop], and what the
    ticks act on. *)
Record System : Type := mkSystem {
  monitor : HttpMonitor;
  worker : Worker;
  caller : StopCall;
  begun : nat;
  sys_world : World E;
  sys_log : list LogEntry
}.

Definition setTicker (h : HttpMonitor) (t : Ticker) : HttpMonitor :=
  mkMonitor (Spec h) (Some t) (stopped h).

(** The steps of the timer, of the worker loop
    [for _ = range h.ticker.C { h.executeRequests() }] with its
    deferred [h.stopped.Done()], and of the two statements of [Stop]. *)
Inductive step : System -> System -> Prop :=
| step_fire s t :
    ticker (monitor s) = Some t ->
    step s (mkSystem (setTicker (monitor s) (Ticker_fire t)) (worker s)
              (caller s) (begun s) (sys_world s) (sys_log s))
| step_receive s t :
    worker s = Receiving ->
    ticker (monitor s) = Some t ->
    buffered (C t) = 1%nat ->
    step s (mkSystem
              (setTicker (monitor s)
                 (mkTicker (active t) (mkChan 0 (closed (C t)))))
              Executing (caller s) (S (begun s)) (sys_world s) (sys_log s))
| step_tick_done s :
    worker s = Executing ->
    let run := executeRequests E M (Spec (monitor s)) (sys_world s)
                 (sys_log s) in
    step s (mkSystem (monitor s) Receiving (caller s) (begun s)
              (world E (final E run)) (log E (final E run)))
| step_range_end s t n :
    worker s = Receiving ->
    ticker (monitor s) = Some t ->
    buffered (C t) = 0%nat ->
    closed (C t) = true ->
    stopped (monitor s) = Some (S n) ->
    step s (mkSystem (mkMonitor (Spec (monitor s)) (ticker (monitor s))
                        (Some n))
              Finished (caller s) (begun s) (sys_world s) (sys_log s))
| step_stop_ticker s h' :
    caller s = NotCalled ->
    Stop_ticker (monitor s) = Return h' ->
    step s (mkSystem h' (worker s) Waiting (begun s) (sys_world s)
              (sys_log s))
| step_stop_return s :
    caller s = Waiting ->
    stopped (monitor s) = Some 0%nat ->
    step s (mkSystem (monitor s) (worker s) Returned (begun s)
              (sys_world s) (sys_log s)).

(** The system right after [Start] has returned. *)
Definition started (h : HttpMonitor) (g : Worker) (w : World E)
           (logger : list LogEntry) : System :=
  mkSystem h g NotCalled 0 w logger.

(** What every state after [Start] satisfies: the channel of the ticker is
    open, the wait group still counts the worker, the worker has not
    returned, and [Stop] has not returned. *)
Definition running (s : System) : Prop :=
  (exists t, ticker (monitor s) = Some t /\ closed (C t) = false)
  /\ stopped (monitor s) = Some 1%nat
  /\ worker s <> Finished
  /\ caller s <> Returned.

End Interleaving.

End Scheduler.


(** ** Predicates the statements use *)

Module Props.
Import GoStrings NetUrl NetHttp v1alpha1.



(** The values that [range] order [l] sends to the output key [k] when
    keys go through [canon], in the order they are added. *)
Definition collect (canon : string -> string) (k : string)
           (l : list (string * list string)) : list string :=
concat (snd <$> filter (fun kv => canon (fst kv) = k) l).

(** The inner loop of [replaceQueryParams] and [replaceHeader], for any
    way [canon] of keying the output and any [f] applied to the values. *)
Definition addValues (canon f : string -> string)
           (acc : gmap string (list string)) (key : string)
           (values : list string) : gmap string (list string) :=
foldl (fun acc x => <[canon key := default [] (acc !! canon key) ++ [f x]]> acc)
      acc values.

(** The outer loop over an enumeration of the input map. *)
Definition addAll (canon f : string -> string)
           (acc : gmap string (list string))
           (l : list (string * list string)) : gmap string (list string) :=
foldl (fun acc kv => addValues canon f acc (fst kv) (snd kv)) acc l.

(** No key of the map holds an empty list. *)
Definition positive (m : gmap string (list string)) : Prop :=
forall k vs, m !! k = Some vs -> vs <> [].

(** What the substitution over a map should give at a key whose values are
    [o]: nothing for a key without values, else every value replaced. *)
Definition replacedValues (replacer : Replacer) (o : option (list string))
  : option (list string) :=
match o with
| Some (x :: xs) => Some (Replace replacer <$> x :: xs)
| _ => None
end.

(** Every step of a trace succeeded. *)
Definition allSucceeded (steps : list Step) : Prop :=
Forall (fun x => err x = None) steps.

(** The variables the requests of a trace hold after they ran, in order. *)
Definition extracted (steps : list Step) : VariableList :=
concat ((fun x => HttpRequest.VariablesFromResponse (request x)) <$> steps).


End Props.

(** ** Scenarios *)

Module Scenario.
Import GoStrings NetUrl NetHttp v1alpha1 Scheduler.

(** A server that records the requests it receives and answers by path:
    [/login] and [/logout] hand out a header, [/fail] answers 500. *)
Definition server (w : list Request) (req : Request) (timeout : Z)
  : list Request * (string + Response) :=
(w ++ [req],
 let path := Rest (req_URL req) in
 if String.eqb path "/login"
 then inr (mkResponse 200 {["X-Token" := ["abc123"]]} EmptyString)
 else if String.eqb path "/logout"
 then inr (mkResponse 200 {["X-Cleanup" := ["c42"]]} EmptyString)
 else if String.eqb path "/fail"
 then inr (mkResponse 500 ∅ EmptyString)
 else inr (mkResponse 200 ∅ EmptyString)).

Definition parseSeconds (s : string) : option Z :=
if String.eqb s "5s" then Some 5000000000 else None.

(** [range] enumerating every map in the order of [map_to_list]. *)
Definition env : Env :=
mkEnv (list Request) server parseSeconds
      map_to_list (fun _ => reflexivity _)
      map_to_list (fun _ => reflexivity _).

Definition methods : VariableMethods :=
SpecModel.methods (fun _ _ => None).

Definition fromHeader (name header : string) : Var.t :=
Var.mk name (Var.FromTypeResponse (Var.HeaderName header)) EmptyString.

Definition get (name url : string) (query : Values) (vars : VariableList)
  : HttpRequest.t :=
HttpRequest.mk name "GET" url ∅ EmptyString query [200] "5s" vars [].

(** Request A of the login scenario. *)
Definition A : HttpRequest.t :=
get "A" "/login" ∅ [fromHeader "token" "X-Token"].

(** Request B of the login scenario, the token in the URL template. *)
Definition B : HttpRequest.t :=
get "B" "/data?auth={{token}}" ∅ [].

(** Request B with the token as a query-parameter template. *)
Definition B' : HttpRequest.t :=
get "B" "/data" {["auth" := ["{{token}}"]]} [].

Definition login (b : HttpRequest.t) : HttpMonitorSpec :=
mkSpec 1000000000 ∅ [A; b] [].

(** A request that fails on its status code. *)
Definition F : HttpRequest.t := get "F" "/fail" ∅ [].

(** A cleanup chain: the first request extracts [cid], the second fails,
    the third uses [cid]. *)
Definition Logout : HttpRequest.t :=
get "Logout" "/logout" ∅ [fromHeader "cid" "X-Cleanup"].
Definition Purge : HttpRequest.t :=
get "Purge" "/purge" {["id" := ["{{cid}}"]]} [].
Definition cleaning : HttpMonitorSpec :=
mkSpec 1000000000 ∅ [A] [Logout; F; Purge].

(** A request with two rules, the second of which finds nothing. *)
Definition twoRules : HttpRequest.t :=
get "A2" "/login" ∅
    [fromHeader "token" "X-Token"; fromHeader "missing" "X-Missing"].

Definition run (h : HttpMonitorSpec) : Run env :=
executeRequests env methods h [] [].

(** The URLs the server received during a run, in order. *)
Definition urls (r : Run env) : list string :=
(fun q => URL_String (req_URL q)) <$> world env (final env r).

Definition seeded : RunState env :=
mkRunState env [] [] [Var.mk "random-8" Var.FromTypeProvided "12345678"].

(** A cleanup chain without a failure: the second request uses what the
    first extracts. *)
Definition cleaning2 : HttpMonitorSpec :=
mkSpec 1000000000 ∅ [A] [Logout; Purge].

(** A store in which the value of one variable is the placeholder of
    another. *)
Definition nested : VariableList :=
[Var.mk "a" Var.FromTypeProvided "{{b}}"; Var.mk "b" Var.FromTypeProvided "X"].

(** A response to request A. *)
Definition tokenResponse : Response :=
mkResponse 200 {["X-Token" := ["abc123"]]} EmptyString.

(** Query parameters with a key that has no value, and a header map with a
    key that is not in canonical form. *)
Definition emptyKey : Values := {["a" := []; "b" := ["x"]]}.
Definition lowerKey : Header := {["x-token" := ["v"]]}.
Definition canonicalKeys : Header :=
{["X-Token" := ["{{a}}"; "{{b}}"]; "Accept" := ["*/*"]]}.

(** A monitor that was never started, with the given period. *)
Definition fresh (period : Z) : HttpMonitor :=
mkMonitor (mkSpec period ∅ [] []) None None.

End Scenario.


(** ** Further predicates: traces, logs and substituted values *)

Module Coverage.
Import GoStrings NetUrl NetHttp v1alpha1 v1alpha1.HttpRequest Scheduler.

(** What the substitution makes of the values of one key: nothing when
    there is no value, else every value replaced. *)
Definition substituted (replacer : Replacer) (values : list string)
  : option (list string) :=
match values with
| [] => None
| _ => Some (Replace replacer <$> values)
end.

(** What a loop body logs for one step: the request is announced at
    level 2, and its failure, if any, reported right after. *)
Definition stepLog (executing failed : string) (x : Step) : list LogEntry :=
LogInfo 2 executing (Name (request x))
:: match err x with
   | Some e => [LogError e failed (Name (request x))]
   | None => []
   end.

(** What a chain logs for its trace. *)
Definition traceLog (executing failed : string) (steps : list Step)
  : list LogEntry :=
concat (stepLog executing failed <$> steps).

(** A step failed. *)
Definition failed (x : Step) : Prop := err x <> None.

(** A request whose timeout is no duration. *)
Definition late : HttpRequest.t :=
HttpRequest.mk "late" "GET" "/login" ∅ EmptyString ∅ [200] "soon" [] [].

(** The ticks the channel of the monitor's ticker holds. *)
Definition pending (h : HttpMonitor) : nat :=
match ticker h with
| Some t => buffered (C t)
| None => 0%nat
end.

(** The ticker of the monitor is set and turned off. *)
Definition halted (h : HttpMonitor) : Prop :=
exists t, ticker h = Some t /\ active t = false.

End Coverage.


(** * Properties *)

(** ** Strings and the replacer *)

Module GoStringsFacts.
Import GoStrings Props.

Lemma app_cons c s t : String c s +:+ t = String c (s +:+ t).
Proof. reflexivity. Qed.

Lemma app_nil_l s : EmptyString +:+ s = s.
Proof. reflexivity. Qed.

Lemma app_nil_r s : s +:+ EmptyString = s.
Proof. induction s as [|c s IH]; [reflexivity|]. rewrite app_cons. by f_equal. Qed.

Lemma app_assoc s t u : (s +:+ t) +:+ u = s +:+ t +:+ u.
Proof.
  induction s as [|c s IH]; [reflexivity|].
  rewrite !app_cons. by f_equal.
Qed.

Lemma length_app s t :
  String.length (s +:+ t) = (String.length s + String.length t)%nat.
Proof.
  induction s as [|c s IH]; [reflexivity|].
  rewrite app_cons. simpl. by rewrite IH.
Qed.

Lemma HasPrefix_app s rest : HasPrefix (s +:+ rest) s = true.
Proof.
  induction s as [|c s IH]; [by destruct rest|].
  rewrite app_cons. simpl. by rewrite Ascii.eqb_refl.
Qed.

Lemma HasPrefix_inv s p :
  HasPrefix s p = true -> exists rest, s = p +:+ rest.
Proof.
  revert s. induction p as [|c p IH]; intros s H.
  - by exists s.
  - destruct s as [|c' s]; [discriminate|]. simpl in H.
    destruct (Ascii.eqb_spec c' c) as [->|]; [|discriminate].
    destruct (IH _ H) as [rest ->]. by exists rest.
Qed.

Lemma HasPrefix_spec s p :
  HasPrefix s p = true <-> exists rest, s = p +:+ rest.
Proof.
  split; [apply HasPrefix_inv|]. intros [rest ->]. apply HasPrefix_app.
Qed.

Lemma HasPrefix_nil_l p : HasPrefix EmptyString p = true -> p = EmptyString.
Proof. by destruct p. Qed.


Lemma Contains_eq s p :
  Contains s p =
  if HasPrefix s p then true
  else match s with
       | EmptyString => false
       | String _ s' => Contains s' p
       end.
Proof. by destruct s. Qed.

Lemma Contains_prefix s p : HasPrefix s p = true -> Contains s p = true.
Proof. intros H. by rewrite Contains_eq, H. Qed.

Lemma Contains_tail c s p : Contains s p = true -> Contains (String c s) p = true.
Proof. intros H. rewrite Contains_eq, H. by destruct (HasPrefix _ _). Qed.


Lemma Contains_spec s p :
  Contains s p = true <-> exists a b, s = a +:+ p +:+ b.
Proof.
  split.
  - induction s as [|c s IH]; rewrite Contains_eq.
    + destruct (HasPrefix EmptyString p) eqn:Hp; [|discriminate].
      intros _. apply HasPrefix_nil_l in Hp as ->. by exists EmptyString, EmptyString.
    + destruct (HasPrefix (String c s) p) eqn:Hp.
      * intros _. apply HasPrefix_inv in Hp as [rest ->].
        by exists EmptyString, rest.
      * intros H. destruct (IH H) as (a & b & ->). by exists (String c a), b.
  - intros (a & b & ->). induction a as [|c a IH].
    + rewrite app_nil_l. apply Contains_prefix, HasPrefix_app.
    + rewrite app_cons. by apply Contains_tail.
Qed.

(** *** What [lookup] finds *)




(** *** The equations of [Replace] *)














End GoStringsFacts.

(** ** Templating: the replacer of a variable store *)

Module TemplatingFacts.
Import GoStrings Props GoStringsFacts v1alpha1 v1alpha1.SpecModel.
















End TemplatingFacts.

(** ** Substitution over header and query-parameter maps *)

Module MapFacts.
Import GoStrings NetUrl NetHttp Props v1alpha1.

Section AddLoop.
Context (canon f : string -> string).

Local Abbreviation addValues := (Props.addValues canon f).
Local Abbreviation addAll := (Props.addAll canon f).

Lemma addValues_lookup acc key values k :
  addValues acc key values !! k =
  if decide (canon key = k)
  then match values with
       | [] => acc !! k
       | _ => Some (default [] (acc !! k) ++ (f <$> values))
       end
  else acc !! k.
Proof.
  unfold Props.addValues. revert acc. induction values as [|x xs IH]; intros acc.
  - simpl. by case_decide.
  - simpl foldl. rewrite IH. case_decide as Hk.
    + subst k. rewrite lookup_insert_eq. simpl.
      destruct xs; [done|]. by rewrite <- app_assoc.
    + by rewrite lookup_insert_ne.
Qed.

Lemma addValues_positive acc key values :
  positive acc -> positive (addValues acc key values).
Proof.
  intros Hacc k vs. rewrite addValues_lookup. case_decide; [|apply Hacc].
  destruct values as [|x xs]; [apply Hacc|].
  intros [= <-]. by destruct (default [] (acc !! k)).
Qed.

Lemma addValues_default acc key values k :
  default [] (addValues acc key values !! k)
  = default [] (acc !! k) ++ (if decide (canon key = k) then f <$> values else []).
Proof.
  rewrite addValues_lookup. case_decide; [|by rewrite app_nil_r].
  destruct values; [by rewrite app_nil_r|done].
Qed.

Lemma collect_cons key values l k :
  collect canon k ((key, values) :: l)
  = (if decide (canon key = k) then values else []) ++ collect canon k l.
Proof. unfold collect. rewrite filter_cons. simpl. by case_decide. Qed.

(** What the loops leave at an output key: the values sent to it, in the
    order of the enumeration, or nothing when there is none. *)
Lemma addAll_lookup acc l k :
  positive acc ->
  addAll acc l !! k =
  match default [] (acc !! k) ++ (f <$> collect canon k l) with
  | [] => None
  | vs => Some vs
  end.
Proof.
  unfold Props.addAll. revert acc.
  induction l as [|[key values] l IH]; intros acc Hacc.
  - simpl. rewrite app_nil_r. destruct (acc !! k) as [vs|] eqn:Hk; [|done].
    simpl. pose proof (Hacc _ _ Hk). by destruct vs.
  - simpl foldl. rewrite IH by by apply addValues_positive.
    rewrite addValues_default, collect_cons, fmap_app, <- app_assoc.
    by case_decide.
Qed.

End AddLoop.

Lemma collect_id_notin k (l : list (string * list string)) :
  k ∉ l.*1 -> collect id k l = [].
Proof.
  induction l as [|[key values] l IH]; [done|].
  rewrite fmap_cons, not_elem_of_cons, collect_cons. intros [Hne Hl].
  simpl in Hne. rewrite decide_False by done. by apply IH.
Qed.

(** With the keys as they are, an enumeration of a map sends to a key the
    values the map holds there. *)
Lemma collect_id_lookup (m : gmap string (list string)) l k :
  l ≡ₚ map_to_list m -> collect id k l = default [] (m !! k).
Proof.
  intros Hl.
  assert (Hnd : NoDup l.*1) by (rewrite Hl; apply NoDup_fst_map_to_list).
  assert (Hm : m = list_to_map l).
  { rewrite (list_to_map_proper l (map_to_list m)) by done.
    by rewrite list_to_map_to_list. }
  rewrite Hm. clear Hl Hm. induction l as [|[key values] l IH]; [done|].
  rewrite fmap_cons, NoDup_cons in Hnd. destruct Hnd as [Hkey Hnd].
  rewrite collect_cons. simpl list_to_map. case_decide as Hk.
  - simpl in Hk. subst key. rewrite lookup_insert_eq.
    rewrite collect_id_notin by done. by rewrite app_nil_r.
  - rewrite lookup_insert_ne by done. by apply IH.
Qed.

(** Keys that [canon] leaves alone go where they would go unkeyed; a key
    without values goes nowhere either way. *)
Lemma collect_canonical canon k (l : list (string * list string)) :
  (forall key values, (key, values) ∈ l -> values <> [] -> canon key = key) ->
  collect canon k l = collect id k l.
Proof.
  induction l as [|[key values] l IH]; intros H; [done|].
  rewrite !collect_cons. rewrite IH by (intros ?? Hin; apply H; by right).
  f_equal. destruct values as [|x xs]; [by repeat case_decide|].
  rewrite (H key (x :: xs)); [done|by left|done].
Qed.

Lemma replaced_default replacer (o : option (list string)) :
  match Replace replacer <$> default [] o with
  | [] => None
  | vs => Some vs
  end = replacedValues replacer o.
Proof. by destruct o as [[|x xs]|]. Qed.

Lemma size_zero_lookup (m : gmap string (list string)) replacer k :
  size m = 0%nat -> m !! k = replacedValues replacer (m !! k).
Proof. intros ->%map_size_empty_inv. by rewrite lookup_empty. Qed.

(** [replaceHeader] at any output key, whatever the keys of the input. *)
Lemma replaceHeader_lookup E (h : gmap string (list string)) replacer k :
  replaceHeader E h replacer !! k =
  match Replace replacer
          <$> collect CanonicalMIMEHeaderKey k (rangeValues E h) with
  | [] => None
  | vs => Some vs
  end.
Proof.
  unfold replaceHeader. case_decide as Hsize.
  - apply map_size_empty_inv in Hsize as ->.
    pose proof (rangeValues_perm E ∅) as Hl.
    rewrite map_to_list_empty in Hl. apply Permutation_nil_r in Hl.
    by rewrite Hl, lookup_empty.
  - change (foldl _ ∅ (rangeValues E h))
      with (addAll CanonicalMIMEHeaderKey (Replace replacer) ∅ (rangeValues E h)).
    rewrite addAll_lookup by (intros ??; by rewrite lookup_empty).
    by rewrite lookup_empty.
Qed.

Lemma replaceQueryParams_lookup E (q : gmap string (list string)) replacer k :
  replaceQueryParams E q replacer !! k = replacedValues replacer (q !! k).
Proof.
  unfold replaceQueryParams. case_decide as Hsize.
  - by apply size_zero_lookup.
  - rewrite <- replaced_default.
    rewrite <- (collect_id_lookup q (rangeValues E q)) by apply rangeValues_perm.
    change (foldl _ ∅ (rangeValues E q))
      with (addAll id (Replace replacer) ∅ (rangeValues E q)).
    rewrite addAll_lookup by (intros ??; by rewrite lookup_empty).
    by rewrite lookup_empty.
Qed.

End MapFacts.

(** ** The request executor and the two chains *)

Module EngineFacts.
Import GoStrings NetUrl NetHttp Props v1alpha1 v1alpha1.HttpRequest.

Lemma containsInt_spec needle haystay :
  containsInt needle haystay = true <-> needle ∈ haystay.
Proof.
  induction haystay as [|val haystay IH]; simpl.
  - split; [done|]. intros H. inversion H.
  - rewrite elem_of_cons. destruct (Z.eqb_spec val needle) as [->|Hne].
    + split; auto.
    + rewrite IH. split; [auto|]. intros [?|?]; [congruence|done].
Qed.

Lemma set_same r : setVariablesFromResponse r (VariablesFromResponse r) = r.
Proof. by destruct r. Qed.

Lemma set_set r vs vs' :
  setVariablesFromResponse (setVariablesFromResponse r vs) vs'
  = setVariablesFromResponse r vs'.
Proof. done. Qed.

Lemma store_append (s vs : VariableList) :
  (if decide (0 < length vs)%nat then s ++ vs else s) = s ++ vs.
Proof.
  case_decide as H; [done|]. destruct vs; [by rewrite app_nil_r|].
  simpl in H. lia.
Qed.

Lemma extracted_cons x steps :
  extracted (x :: steps) = VariablesFromResponse (request x) ++ extracted steps.
Proof. reflexivity. Qed.

Lemma extracted_app steps steps' :
  extracted (steps ++ steps') = extracted steps ++ extracted steps'.
Proof. unfold extracted. by rewrite fmap_app, concat_app. Qed.

Section WithEnv.
Context (E : Env) (M : VariableMethods).

(** *** One request *)

(** The extraction loop fails exactly when a rule fails after the rules
    before it succeeded; the variables behind it are left as they were. *)
Lemma parseVariables_fails a a' v v' b resp e :
  Forall2 (fun x x' => ParseFromResponse M x resp = (x', None)) a a' ->
  ParseFromResponse M v resp = (v', Some e) ->
  parseVariables M (a ++ v :: b) resp = (a' ++ v' :: b, Some e).
Proof.
  intros Ha Hv. induction Ha as [|x x' a a' Hx _ IH]; simpl.
  - by rewrite Hv.
  - by rewrite Hx, IH.
Qed.

Lemma parseVariables_succeeds a a' resp :
  Forall2 (fun x x' => ParseFromResponse M x resp = (x', None)) a a' ->
  parseVariables M a resp = (a', None).
Proof.
  intros Ha. induction Ha as [|x x' a a' Hx _ IH]; simpl; [done|].
  by rewrite Hx, IH.
Qed.

Lemma extractVariables_frame r resp r' e :
  extractVariables M r resp = (r', e) ->
  r' = setVariablesFromResponse r (VariablesFromResponse r').
Proof.
  unfold extractVariables. case_decide.
  - intros [= <- _]. by rewrite set_same.
  - destruct (parseVariables _ _ _) as [vs e']. by intros [= <- _].
Qed.

Lemma handleResponse_frame r resp r' e :
  handleResponse M r resp = (r', e) ->
  r' = setVariablesFromResponse r (VariablesFromResponse r').
Proof.
  unfold handleResponse. destruct resp as [resp|].
  - destruct (negb _); [|apply extractVariables_frame].
    intros [= <- _]. by rewrite set_same.
  - intros [= <- _]. by rewrite set_same.
Qed.

(** [Do] changes nothing of a request but the values of its own
    variables. *)
Lemma Do_frame r w w' r' e :
  Do E M r w = (w', r', e) ->
  r' = setVariablesFromResponse r (VariablesFromResponse r').
Proof.
  unfold Do. destruct (BuildRequest E M r) as [?|req].
  { intros [= _ <- _]. by rewrite set_same. }
  destruct (ParseDuration E (Timeout r)) as [timeoutDuration|].
  2:{ intros [= _ <- _]. by rewrite set_same. }
  destruct (client_Do E w req timeoutDuration) as [w1 [msg|resp]].
  { intros [= _ <- _]. by rewrite set_same. }
  destruct (handleResponse M r (Some resp)) as [r1 e1] eqn:Hh.
  intros [= _ <- _]. by apply handleResponse_frame in Hh.
Qed.

Lemma Do_attached httpRequest s w w' r' e :
  Do E M (attach M httpRequest s) w = (w', r', e) ->
  availableVariables r' = s /\ Name r' = Name httpRequest.
Proof. intros ->%Do_frame. done. Qed.

(** *** The monitoring chain *)

Lemma runRequests_cons_ok httpRequest requests st w r :
  Do E M (attach M httpRequest (store E st)) (world E st) = (w, r, None) ->
  runRequests E M (httpRequest :: requests) st =
  let '(steps, st') :=
    runRequests E M requests
      (mkRunState E w
         (log E st ++ [LogInfo 2 "executing request" (Name httpRequest)])
         (store E st ++ VariablesFromResponse r)) in
  (mkStep r None :: steps, st').
Proof. intros H. simpl. by rewrite H, store_append. Qed.

Lemma runRequests_cons_fail httpRequest requests st w r e :
  Do E M (attach M httpRequest (store E st)) (world E st) = (w, r, Some e) ->
  runRequests E M (httpRequest :: requests) st =
  ([mkStep r (Some e)],
   mkRunState E w
     (log E st ++ [LogInfo 2 "executing request" (Name httpRequest);
                   LogError e "failed to complete request" (Name httpRequest)])
     (store E st)).
Proof. intros H. simpl. by rewrite H, <- app_assoc. Qed.

(** After a prefix that succeeded the chain goes on from the state the
    prefix left. *)
Lemma runRequests_app pre rest st psteps st1 :
  runRequests E M pre st = (psteps, st1) ->
  allSucceeded psteps ->
  runRequests E M (pre ++ rest) st =
  let '(rsteps, st') := runRequests E M rest st1 in (psteps ++ rsteps, st').
Proof.
  revert st psteps. induction pre as [|r pre IH]; intros st psteps Hrun Hok.
  - injection Hrun as <- <-. simpl. by destruct (runRequests E M rest st).
  - destruct (Do E M (attach M r (store E st)) (world E st))
      as [[w r'] [e|]] eqn:HDo.
    + rewrite (runRequests_cons_fail _ _ _ _ _ _ HDo) in Hrun.
      injection Hrun as <- <-. by inversion Hok.
    + rewrite (runRequests_cons_ok _ _ _ _ _ HDo) in Hrun.
      rewrite <- app_comm_cons, (runRequests_cons_ok _ _ _ _ _ HDo).
      destruct (runRequests E M pre _) as [steps' st2] eqn:Hpre.
      injection Hrun as <- <-. inversion Hok; subst.
      rewrite (IH _ _ Hpre) by done.
      by destruct (runRequests E M rest st2).
Qed.

(** A chain that succeeded ran every request and appended what each one
    extracted. *)
Lemma runRequests_succeeded requests st steps st' :
  runRequests E M requests st = (steps, st') ->
  allSucceeded steps ->
  length steps = length requests /\ store E st' = store E st ++ extracted steps.
Proof.
  revert st steps. induction requests as [|r requests IH]; intros st steps Hrun Hok.
  - injection Hrun as <- <-. by rewrite app_nil_r.
  - destruct (Do E M (attach M r (store E st)) (world E st))
      as [[w r'] [e|]] eqn:HDo.
    + rewrite (runRequests_cons_fail _ _ _ _ _ _ HDo) in Hrun.
      injection Hrun as <- <-. by inversion Hok.
    + rewrite (runRequests_cons_ok _ _ _ _ _ HDo) in Hrun.
      destruct (runRequests E M requests _) as [steps' st2] eqn:Hrest.
      injection Hrun as <- <-. inversion Hok; subst.
      destruct (IH _ _ Hrest) as [Hlen Hstore]; [done|].
      split; [simpl; by rewrite Hlen|].
      rewrite Hstore, extracted_cons. simpl. by rewrite app_assoc.
Qed.

(** The store a request of the monitoring chain is given: the store the
    chain started from and what the requests before it extracted. *)
Lemma runRequests_attached requests st steps st' i x :
  runRequests E M requests st = (steps, st') ->
  steps !! i = Some x ->
  availableVariables (request x) = store E st ++ extracted (take i steps).
Proof.
  revert st steps i. induction requests as [|r requests IH]; intros st steps i Hrun Hi.
  - injection Hrun as <- <-. by rewrite lookup_nil in Hi.
  - destruct (Do E M (attach M r (store E st)) (world E st))
      as [[w r'] [e|]] eqn:HDo.
    + rewrite (runRequests_cons_fail _ _ _ _ _ _ HDo) in Hrun.
      injection Hrun as <- <-. destruct i as [|i]; [|done].
      injection Hi as <-. simpl. rewrite app_nil_r.
      by apply Do_attached in HDo as [-> _].
    + rewrite (runRequests_cons_ok _ _ _ _ _ HDo) in Hrun.
      destruct (runRequests E M requests _) as [steps' st2] eqn:Hrest.
      injection Hrun as <- <-. destruct i as [|i].
      * injection Hi as <-. simpl. rewrite app_nil_r.
        by apply Do_attached in HDo as [-> _].
      * simpl in Hi. rewrite (IH _ _ _ Hrest Hi). simpl.
        by rewrite extracted_cons, app_assoc.
Qed.

(** Only the last step of the monitoring chain can have failed, and a
    failed step leaves the store as the step found it. *)
Lemma runRequests_failed_last requests st steps st' i x e :
  runRequests E M requests st = (steps, st') ->
  steps !! i = Some x -> err x = Some e ->
  length steps = S i /\ store E st' = availableVariables (request x).
Proof.
  revert st steps i. induction requests as [|r requests IH]; intros st steps i Hrun Hi He.
  - injection Hrun as <- <-. by rewrite lookup_nil in Hi.
  - destruct (Do E M (attach M r (store E st)) (world E st))
      as [[w r'] [e'|]] eqn:HDo.
    + rewrite (runRequests_cons_fail _ _ _ _ _ _ HDo) in Hrun.
      injection Hrun as <- <-. destruct i as [|i]; [|done].
      injection Hi as <-. simpl. by apply Do_attached in HDo as [-> _].
    + rewrite (runRequests_cons_ok _ _ _ _ _ HDo) in Hrun.
      destruct (runRequests E M requests _) as [steps' st2] eqn:Hrest.
      injection Hrun as <- <-. destruct i as [|i].
      * injection Hi as <-. simpl in He. discriminate.
      * simpl in Hi. destruct (IH _ _ _ Hrest Hi He) as [Hlen Hstore].
        split; [simpl; by rewrite Hlen|done].
Qed.

(** *** The cleanup chain *)

Lemma runCleanup_cons httpRequest requests st w r e :
  Do E M (attach M httpRequest (store E st)) (world E st) = (w, r, e) ->
  runCleanup E M (httpRequest :: requests) st =
  let '(steps, st') :=
    runCleanup E M requests
      (mkRunState E w
         (log E st
          ++ LogInfo 2 "executing cleanup request" (Name httpRequest)
          :: match e with
             | Some e' =>
                 [LogError e' "failed to complete cleanup request"
                    (Name httpRequest)]
             | None => []
             end)
         (store E st)) in
  (mkStep r e :: steps, st').
Proof.
  intros H. simpl. rewrite H. destruct e; [|done]. by rewrite <- app_assoc.
Qed.

(** The cleanup chain runs every request whatever fails, and gives each
    one the store the chain started from. *)
Lemma runCleanup_all requests st steps st' :
  runCleanup E M requests st = (steps, st') ->
  length steps = length requests
  /\ store E st' = store E st
  /\ Forall (fun x => availableVariables (request x) = store E st) steps
  /\ (fun x => Name (request x)) <$> steps = Name <$> requests.
Proof.
  revert st steps. induction requests as [|r requests IH]; intros st steps Hrun.
  - by injection Hrun as <- <-.
  - destruct (Do E M (attach M r (store E st)) (world E st))
      as [[w r'] e] eqn:HDo.
    rewrite (runCleanup_cons _ _ _ _ _ _ HDo) in Hrun.
    destruct (runCleanup E M requests _) as [steps' st2] eqn:Hrest.
    injection Hrun as <- <-.
    destruct (IH _ _ Hrest) as (Hlen & Hstore & Hall & Hnames).
    apply Do_attached in HDo as [Hav Hname].
    repeat split; [simpl; by rewrite Hlen|done|by constructor|].
    rewrite !fmap_cons. simpl. by rewrite Hname, Hnames.
Qed.

End WithEnv.

End EngineFacts.

(** ** The claims about templating and request construction *)

Module TemplatingClaims.
Import GoStrings NetUrl NetHttp Props v1alpha1 v1alpha1.HttpRequest.
Import GoStringsFacts TemplatingFacts MapFacts EngineFacts.

Lemma Encode_empty (v : Values) : size v = 0%nat -> Encode v = EmptyString.
Proof. intros H. unfold Encode. by rewrite decide_True. Qed.

(** The query string of a built request is the encoding of the rendered
    query parameters and nothing else. *)
Lemma BuildRequest_query E M r req :
  BuildRequest E M r = inr req ->
  RawQuery (req_URL req)
  = Encode (replaceQueryParams E (QueryParams r)
              (newReplacer M (availableVariables r)))
  /\ req_Header req
     = replaceHeader E (Headers r) (newReplacer M (availableVariables r)).
Proof.
  unfold BuildRequest. destruct (NewRequest _ _ _) as [msg|q]; [done|].
  by intros [= <-].
Qed.

Lemma BuildRequest_no_params E M r req :
  BuildRequest E M r = inr req ->
  size (QueryParams r) = 0%nat ->
  RawQuery (req_URL req) = EmptyString.
Proof.
  intros [-> _]%BuildRequest_query Hsize. apply Encode_empty.
  unfold replaceQueryParams. by rewrite decide_True.
Qed.

(** C1, as stated, fails: in the login scenario the second request the
    server receives is not [/data?auth=abc123]. *)
Lemma login_scenario_url_template_query_is_lost :
  Scenario.urls (Scenario.run (Scenario.login Scenario.B)) !! 1%nat
  <> Some "/data?auth=abc123".
Proof. vm_compute. discriminate. Qed.

(** C1, amended: in the login scenario (A extracts header X-Token into
    [token], B has URL template [/data?auth={{token}}] and no
    query-parameter templates) B is given a store with [token], and its URL
    template renders to [/data?auth=abc123]; but the request built for B
    has URL [/data], because [BuildRequest] sets the query string to the
    encoding of the rendered query parameters and so drops the query of
    the URL whenever there are no query parameters.  With the token as a
    query-parameter template on URL [/data], the request URL is
    [/data?auth=abc123]. *)
Theorem login_scenario_urls :
  (exists x,
      monitoring Scenario.env (Scenario.run (Scenario.login Scenario.B)) !! 1%nat
      = Some x
      /\ err x = None
      /\ Replace (SpecModel.newReplacer (availableVariables (request x)))
           (Url (request x))
         = "/data?auth=abc123")
  /\ Scenario.urls (Scenario.run (Scenario.login Scenario.B))
     = ["/login"; "/data"]
  /\ Scenario.urls (Scenario.run (Scenario.login Scenario.B'))
     = ["/login"; "/data?auth=abc123"]
  /\ (forall E M r req,
         BuildRequest E M r = inr req ->
         size (QueryParams r) = 0%nat ->
         RawQuery (req_URL req) = EmptyString).
Proof.
  split; [|split; [|split]].
  - eexists. split; [vm_compute; reflexivity|]. split; vm_compute; reflexivity.
  - vm_compute. reflexivity.
  - vm_compute. reflexivity.
  - apply BuildRequest_no_params.
Qed.



(** Whatever the keys of a header map, the substituted headers hold at a
    key the substituted values of every input key whose canonical form it
    is, in the order the loop met them, and no key without a value. *)
Theorem header_substitution_by_canonical_key E
        (h : gmap string (list string)) (replacer : Replacer) (k : string) :
  replaceHeader E h replacer !! k =
  match Replace replacer
          <$> collect CanonicalMIMEHeaderKey k (rangeValues E h) with
  | [] => None
  | vs => Some vs
  end.
Proof. apply replaceHeader_lookup. Qed.


(** C7, as stated, fails: a key without values is dropped, and a header
    key is replaced by its canonical form, so the key set changes. *)
Lemma substitution_changes_key_set :
  dom (replaceQueryParams Scenario.env Scenario.emptyKey [])
  <> dom Scenario.emptyKey
  /\ dom (replaceHeader Scenario.env Scenario.lowerKey [])
     <> dom Scenario.lowerKey.
Proof.
  split; intros H.
  - assert (Ha : "a" ∈ dom Scenario.emptyKey) by (apply elem_of_dom; by eexists).
    rewrite <- H in Ha. apply elem_of_dom in Ha as [x Hx].
    vm_compute in Hx. discriminate.
  - assert (Ha : "x-token" ∈ dom Scenario.lowerKey)
      by (apply elem_of_dom; by eexists).
    rewrite <- H in Ha. apply elem_of_dom in Ha as [x Hx].
    vm_compute in Hx. discriminate.
Qed.

(** C7, amended: for every replacer and every enumeration order, the
    substituted query parameters hold, at each key that has at least one
    value in the input, the same number of values in the same order with
    the substitution applied to each, and nothing at any other key (a key
    without values is dropped).  The substituted headers do the same
    whenever the keys that have values are in canonical MIME form, which
    [Header.Add] puts every key in. *)
Theorem substitution_keeps_values_per_key E (replacer : Replacer)
        (q h : gmap string (list string)) :
  (forall key values,
      h !! key = Some values -> values <> [] ->
      CanonicalMIMEHeaderKey key = key) ->
  (forall k, replaceQueryParams E q replacer !! k
             = replacedValues replacer (q !! k))
  /\ (forall k, replaceHeader E h replacer !! k
                = replacedValues replacer (h !! k)).
Proof.
  intros Hcanon. split; intros k; [apply replaceQueryParams_lookup|].
  rewrite replaceHeader_lookup, collect_canonical.
  - rewrite (collect_id_lookup h) by apply rangeValues_perm.
    apply replaced_default.
  - intros key values Hin. apply Hcanon.
    apply elem_of_map_to_list. by rewrite <- (rangeValues_perm E h).
Qed.

Lemma substitution_keeps_values_per_key_witness :
  (forall k,
      replaceQueryParams Scenario.env Scenario.emptyKey
        (SpecModel.newReplacer Scenario.nested) !! k
      = replacedValues (SpecModel.newReplacer Scenario.nested)
          (Scenario.emptyKey !! k))
  /\ (forall k,
         replaceHeader Scenario.env Scenario.canonicalKeys
           (SpecModel.newReplacer Scenario.nested) !! k
         = replacedValues (SpecModel.newReplacer Scenario.nested)
             (Scenario.canonicalKeys !! k)).
Proof.
  apply (substitution_keeps_values_per_key Scenario.env).
  intros key values Hkey _.
  apply elem_of_map_to_list in Hkey. vm_compute in Hkey.
  repeat (apply elem_of_cons in Hkey as [[= -> _]|Hkey]); try reflexivity.
  inversion Hkey.
Defined.

End TemplatingClaims.

(** ** The claims about response handling and the two chains *)

Module ChainClaims.
Import GoStrings NetUrl NetHttp Props v1alpha1 v1alpha1.HttpRequest.
Import EngineFacts.

(** C5: for every request and every response, [handleResponse] goes on to
    the extraction rules exactly when the status code is a member of the
    accepted codes (membership in the list, whatever lies between its
    elements); when it is not a member the request is returned untouched
    with an error that carries the code and the accepted codes, and whose
    text names both (the code in decimal, the accepted codes as [%x]
    prints them). *)
Theorem status_validation_is_membership (M : VariableMethods)
        (r : HttpRequest.t) (resp : Response) :
  (StatusCode resp ∈ ExpectedResponseCodes r ->
   handleResponse M r (Some resp) = extractVariables M r resp)
  /\ (StatusCode resp ∉ ExpectedResponseCodes r ->
      handleResponse M r (Some resp)
      = (r, Some (UnexpectedStatusError (StatusCode resp)
                    (ExpectedResponseCodes r)))
      /\ Error (UnexpectedStatusError (StatusCode resp)
                  (ExpectedResponseCodes r))
         = Some ("not an expected error code: " +:+ fmt_d (StatusCode resp)
                 +:+ " is not in "
                 +:+ fmt_x_slice (ExpectedResponseCodes r))).
Proof.
  unfold handleResponse. split; intros H.
  - apply containsInt_spec in H. by rewrite H.
  - split; [|reflexivity].
    destruct (containsInt _ _) eqn:Hc; [|done].
    by apply containsInt_spec in Hc.
Qed.

Lemma status_validation_is_membership_witness :
  handleResponse Scenario.methods
    (Scenario.get "r" "/x" ∅ []) (Some (mkResponse 200 ∅ EmptyString))
  = extractVariables Scenario.methods
      (Scenario.get "r" "/x" ∅ []) (mkResponse 200 ∅ EmptyString)
  /\ handleResponse Scenario.methods
       (HttpRequest.mk "r" "GET" "/x" ∅ EmptyString ∅ [200; 202] "5s" [] [])
       (Some (mkResponse 201 ∅ EmptyString))
     = (HttpRequest.mk "r" "GET" "/x" ∅ EmptyString ∅ [200; 202] "5s" [] [],
        Some (UnexpectedStatusError 201 [200; 202]))
  /\ Error (UnexpectedStatusError 201 [200; 202])
     = Some "not an expected error code: 201 is not in [c8 ca]".
Proof.
  split.
  - apply (status_validation_is_membership Scenario.methods
             (Scenario.get "r" "/x" ∅ []) (mkResponse 200 ∅ EmptyString)).
    left.
  - destruct (status_validation_is_membership Scenario.methods
                (HttpRequest.mk "r" "GET" "/x" ∅ EmptyString ∅ [200; 202]
                   "5s" [] [])
                (mkResponse 201 ∅ EmptyString)) as [_ H].
    destruct H as [H1 H2]; [|split; [exact H1|reflexivity]].
    simpl. intros H.
    repeat (apply elem_of_cons in H as [H|H]; [discriminate H|]).
    inversion H.
Defined.

Section WithEnv.
Context (E : Env) (M : VariableMethods).

(** C4: in a monitoring chain [pre ++ rk :: post] in which the requests of
    [pre] succeed and [rk] fails, every request of [pre] is executed and
    [rk] is given the store the chain started from followed by what the
    requests of [pre] extracted; the chain ends with the failed step of
    [rk], logs its failure, and leaves the store as [rk] found it (nothing
    [rk] parsed is appended); whatever [post] is, none of its requests is
    executed: the trace, the world, the log and the store do not depend on
    it. *)
Theorem monitoring_chain_stops_at_first_failure
        (pre post : list HttpRequest.t) (rk : HttpRequest.t)
        (st st1 : RunState E) (psteps : list Step)
        (w : World E) (r : HttpRequest.t) (e : error) :
  runRequests E M pre st = (psteps, st1) ->
  allSucceeded psteps ->
  Do E M (attach M rk (store E st1)) (world E st1) = (w, r, Some e) ->
  runRequests E M (pre ++ rk :: post) st
  = (psteps ++ [mkStep r (Some e)],
     mkRunState E w
       (log E st1 ++ [LogInfo 2 "executing request" (Name rk);
                      LogError e "failed to complete request" (Name rk)])
       (store E st1))
  /\ length psteps = length pre
  /\ (forall i x, psteps !! i = Some x ->
                  availableVariables (request x)
                  = store E st ++ extracted (take i psteps))
  /\ availableVariables r = store E st ++ extracted psteps
  /\ store E st1 = store E st ++ extracted psteps.
Proof.
  intros Hpre Hok HDo.
  destruct (runRequests_succeeded E M _ _ _ _ Hpre Hok) as [Hlen Hstore].
  repeat split; [|done| |by apply Do_attached in HDo as [-> _]|done].
  - rewrite (runRequests_app E M _ _ _ _ _ Hpre Hok).
    by rewrite (runRequests_cons_fail E M _ _ _ _ _ _ HDo).
  - intros i x Hi. by apply (runRequests_attached E M _ _ _ _ _ _ Hpre Hi).
Qed.

(** C8: when the rules of a request are applied in declared order to an
    accepted response and one of them fails after the rules before it
    succeeded, [Do] returns the error of that rule, and what the earlier
    rules parsed stays on the request alone: in the monitoring chain the
    step ends the chain with the store exactly as it was before the
    request, and in the cleanup chain the store is never extended
    either. *)
Theorem extraction_failure_discards_partial_extractions
        (httpRequest : HttpRequest.t) (rest : list HttpRequest.t)
        (st : RunState E) (req : Request) (timeout : Z) (w : World E)
        (resp : Response) (a a' b : VariableList) (v v' : Var.t) (e : error) :
  BuildRequest E M (attach M httpRequest (store E st)) = inr req ->
  ParseDuration E (Timeout httpRequest) = Some timeout ->
  client_Do E (world E st) req timeout = (w, inr resp) ->
  StatusCode resp ∈ ExpectedResponseCodes httpRequest ->
  clearValues M (VariablesFromResponse httpRequest) = a ++ v :: b ->
  Forall2 (fun x x' => ParseFromResponse M x resp = (x', None)) a a' ->
  ParseFromResponse M v resp = (v', Some e) ->
  Do E M (attach M httpRequest (store E st)) (world E st)
  = (w, setVariablesFromResponse (attach M httpRequest (store E st))
          (a' ++ v' :: b),
     Some e)
  /\ runRequests E M (httpRequest :: rest) st
     = ([mkStep (setVariablesFromResponse (attach M httpRequest (store E st))
                   (a' ++ v' :: b))
           (Some e)],
        mkRunState E w
          (log E st ++ [LogInfo 2 "executing request" (Name httpRequest);
                        LogError e "failed to complete request"
                          (Name httpRequest)])
          (store E st))
  /\ store E (snd (runCleanup E M (httpRequest :: rest) st)) = store E st.
Proof.
  intros Hbuild Htimeout Hclient Hcode Hvars Ha Hv.
  assert (HDo : Do E M (attach M httpRequest (store E st)) (world E st)
                = (w, setVariablesFromResponse
                        (attach M httpRequest (store E st)) (a' ++ v' :: b),
                   Some e)).
  { unfold Do. rewrite Hbuild. simpl Timeout. rewrite Htimeout, Hclient.
    unfold handleResponse. simpl ExpectedResponseCodes.
    apply containsInt_spec in Hcode. rewrite Hcode. simpl negb.
    unfold extractVariables. simpl VariablesFromResponse. rewrite Hvars.
    rewrite decide_False by (rewrite length_app; simpl; lia).
    by rewrite (parseVariables_fails M a a' v v' b resp e). }
  split; [done|]. split.
  - by apply runRequests_cons_fail.
  - destruct (runCleanup E M (httpRequest :: rest) st) as [steps st'] eqn:Hc.
    by apply runCleanup_all in Hc as (_ & ? & _).
Qed.

End WithEnv.

Lemma monitoring_chain_stops_at_first_failure_witness :
  runRequests Scenario.env Scenario.methods
    ([Scenario.A] ++ Scenario.F :: [Scenario.B]) Scenario.seeded
  = (fst (runRequests Scenario.env Scenario.methods [Scenario.A]
            Scenario.seeded)
     ++ [mkStep (attach Scenario.methods Scenario.F
                   (Scenario.seeded.(store Scenario.env)
                    ++ [Var.mk "token"
                          (Var.FromTypeResponse (Var.HeaderName "X-Token"))
                          "abc123"]))
           (Some (UnexpectedStatusError 500 [200]))],
     mkRunState Scenario.env
       (world Scenario.env
          (snd (runRequests Scenario.env Scenario.methods
                  [Scenario.A; Scenario.F] Scenario.seeded)))
       (log Scenario.env
          (snd (runRequests Scenario.env Scenario.methods [Scenario.A]
                  Scenario.seeded))
        ++ [LogInfo 2 "executing request" "F";
            LogError (UnexpectedStatusError 500 [200])
              "failed to complete request" "F"])
       (store Scenario.env
          (snd (runRequests Scenario.env Scenario.methods [Scenario.A]
                  Scenario.seeded)))).
Proof.
  refine (proj1 (monitoring_chain_stops_at_first_failure
                   Scenario.env Scenario.methods
                   [Scenario.A] [Scenario.B] Scenario.F Scenario.seeded
                   (snd (runRequests Scenario.env Scenario.methods
                           [Scenario.A] Scenario.seeded))
                   (fst (runRequests Scenario.env Scenario.methods
                           [Scenario.A] Scenario.seeded))
                   _ _ _ _ _ _)).
  - vm_compute. reflexivity.
  - vm_compute. repeat constructor.
  - vm_compute. reflexivity.
Defined.

Lemma extraction_failure_discards_partial_extractions_witness :
  store Scenario.env
    (snd (runRequests Scenario.env Scenario.methods
            [Scenario.twoRules; Scenario.B] Scenario.seeded))
  = store Scenario.env Scenario.seeded
  /\ (fun x => Var.Value <$> VariablesFromResponse (request x))
       <$> fst (runRequests Scenario.env Scenario.methods
                  [Scenario.twoRules; Scenario.B] Scenario.seeded)
     = [["abc123"; EmptyString]].
Proof.
  destruct (extraction_failure_discards_partial_extractions
              Scenario.env Scenario.methods
              Scenario.twoRules [Scenario.B] Scenario.seeded
              (mkRequest "GET" (mkURL "/login" false EmptyString EmptyString)
                 ∅ EmptyString)
              5000000000
              [mkRequest "GET" (mkURL "/login" false EmptyString EmptyString)
                 ∅ EmptyString]
              Scenario.tokenResponse
              [Scenario.fromHeader "token" "X-Token"]
              [Var.setValue (Scenario.fromHeader "token" "X-Token") "abc123"]
              []
              (Scenario.fromHeader "missing" "X-Missing")
              (Scenario.fromHeader "missing" "X-Missing")
              (ExtractionError "missing"))
    as (_ & Hrun & _).
  - vm_compute. reflexivity.
  - reflexivity.
  - vm_compute. reflexivity.
  - left.
  - reflexivity.
  - repeat constructor.
  - reflexivity.
  - rewrite Hrun. split; reflexivity.
Defined.

End ChainClaims.

(** ** One tick: the store of every request *)

Module TickClaims.
Import GoStrings NetUrl NetHttp Props v1alpha1 v1alpha1.HttpRequest.
Import EngineFacts.




(** The cleanup chain runs every request whatever fails, gives each one
    the store the chain started from, and leaves that store as it is. *)
Theorem cleanup_chain_runs_every_request E M
        (requests : list HttpRequest.t) (st : RunState E) :
  length (fst (runCleanup E M requests st)) = length requests
  /\ (fun x => Name (request x)) <$> fst (runCleanup E M requests st)
     = Name <$> requests
  /\ Forall (fun x => availableVariables (request x) = store E st)
       (fst (runCleanup E M requests st))
  /\ store E (snd (runCleanup E M requests st)) = store E st.
Proof.
  destruct (runCleanup E M requests st) as [steps st'] eqn:Hrun.
  by apply runCleanup_all in Hrun as (? & ? & ? & ?).
Qed.


(** C2, on the code: in the cleanup chain [Logout; F; Purge] all three
    requests are executed although F fails, and Logout extracts [cid]; but
    the store given to Purge is the store of the monitoring chain, without
    [cid], so the placeholder of [cid] goes out unresolved in the request
    of Purge. *)
Theorem cleanup_chain_drops_extracted_variables :
  err <$> cleanup Scenario.env (Scenario.run Scenario.cleaning)
  = [None; Some (UnexpectedStatusError 500 [200]); None]
  /\ (fun x => VariablesFromResponse (request x))
       <$> cleanup Scenario.env (Scenario.run Scenario.cleaning)
     = [[Var.mk "cid" (Var.FromTypeResponse (Var.HeaderName "X-Cleanup"))
           "c42"]; []; []]
  /\ (fun x => Var.Name <$> availableVariables (request x))
       <$> cleanup Scenario.env (Scenario.run Scenario.cleaning)
     = [["random-8"; "token"]; ["random-8"; "token"]; ["random-8"; "token"]]
  /\ Scenario.urls (Scenario.run Scenario.cleaning)
     = ["/login"; "/logout"; "/fail"; "/purge?id=%7B%7Bcid%7D%7D"].
Proof. repeat split; vm_compute; reflexivity. Qed.

(** C3, on the code: in a tick with cleanup chain [Logout; Purge], where
    Logout succeeds and extracts [cid], the store given to the second
    cleanup request is the final store of the monitoring chain and does
    not hold the variable the first cleanup request extracted. *)
Theorem cleanup_store_is_the_monitoring_store :
  err <$> cleanup Scenario.env (Scenario.run Scenario.cleaning2)
  = [None; None]
  /\ extracted (cleanup Scenario.env (Scenario.run Scenario.cleaning2))
     = [Var.mk "cid" (Var.FromTypeResponse (Var.HeaderName "X-Cleanup")) "c42"]
  /\ (fun x => availableVariables (request x))
       <$> cleanup Scenario.env (Scenario.run Scenario.cleaning2) !! 1%nat
     = Some (store Scenario.env
               (afterMonitoring Scenario.env (Scenario.run Scenario.cleaning2)))
  /\ Var.Name
       <$> store Scenario.env
             (afterMonitoring Scenario.env (Scenario.run Scenario.cleaning2))
     = ["random-8"; "token"].
Proof. repeat split; vm_compute; reflexivity. Qed.

End TickClaims.

(** ** The scheduler *)

Module SchedulerClaims.
Import v1alpha1 Scheduler.

(** C10, as stated, fails: a monitor that was never started, so is not
    running, panics in [Start] when its period is zero, and panics in
    [Stop]. *)
Lemma start_panics_on_a_stopped_monitor :
  ticker (Scenario.fresh 0) = None
  /\ Start (Scenario.fresh 0) = Panic "non-positive interval for NewTicker"
  /\ Stop_ticker (Scenario.fresh 0)
     = Panic "invalid memory address or nil pointer dereference".
Proof. repeat split. Qed.

(** C10, amended: [Start] on a monitor whose ticker is set (it was started
    before) panics with the double-start message instead of returning an
    error; it is not the only panic: [Start] panics exactly when the ticker
    is set or the period is not positive, and [Stop] panics exactly when
    the monitor was never started. *)
Theorem start_and_stop_panics (h : HttpMonitor) :
  (ticker h <> None ->
   Start h = Panic "tried to start an already started HttpMonitor")
  /\ ((exists msg, Start h = Panic msg) <->
      ticker h <> None \/ Period (Spec h) <= 0)
  /\ ((exists msg, Stop_ticker h = Panic msg) <-> ticker h = None).
Proof.
  unfold Start, Stop_ticker, NewTicker.
  destruct (ticker h) as [t|] eqn:Ht.
  - repeat split; try done; eauto.
    + intros [msg Hmsg]. discriminate.
  - destruct (Z.leb_spec (Period (Spec h)) 0) as [Hp|Hp].
    + repeat split; try done; eauto.
    + repeat split; try done; eauto.
      * intros [msg Hmsg]. discriminate.
      * intros [?|?]; [done|lia].
Qed.

Section Interleaving.
Context (E : Env) (M : VariableMethods).

Lemma running_step s s' : running E s -> step E M s s' -> running E s'.
Proof.
  intros ((t & Ht & Hopen) & Hwg & Hworker & Hcaller) Hstep.
  inversion Hstep; subst; unfold running; simpl.
  - repeat split; try done. eexists. split; [done|].
    replace t0 with t by congruence.
    unfold Ticker_fire. by destruct (active t).
  - repeat split; try done. eexists. split; [done|]. simpl. congruence.
  - repeat split; try done. by exists t.
  - congruence.
  - unfold Stop_ticker in *. rewrite Ht in *. simplify_eq. simpl.
    repeat split; try done. by exists (Ticker_Stop t).
  - congruence.
Qed.

Lemma running_started h h' g w logger :
  Start h = Return (h', g) -> running E (started E h' g w logger).
Proof.
  unfold Start, NewTicker. destruct (ticker h); [done|].
  destruct (Period (Spec h) <=? 0); [done|]. intros [= <- <-].
  repeat split; try done. by eexists.
Qed.

(** C9, on the code: after [Start], whatever the timer, the worker and the
    caller of [Stop] do, [Stop] has not returned and the worker has not
    left its loop: [ticker.Stop] does not close the channel the worker
    ranges over, so the deferred [Done] never runs and [Wait] blocks for
    ever, also when no tick is in flight. *)
Theorem Stop_never_returns (h h' : HttpMonitor) (g : Worker) (w : World E)
        (logger : list LogEntry) (s : System E) :
  Start h = Return (h', g) ->
  rtc (step E M) (started E h' g w logger) s ->
  caller E s <> Returned /\ worker E s <> Finished.
Proof.
  intros Hstart Hsteps.
  assert (Hrun : running E s).
  { apply (@rtc_ind_r _ (step E M) (running E) (started E h' g w logger));
      [by eapply running_started| |done].
    intros y z _ Hstep Hy. by eapply running_step. }
  by destruct Hrun as (_ & _ & ? & ?).
Qed.

End Interleaving.

Lemma Stop_never_returns_witness :
  caller Scenario.env
    (mkSystem Scenario.env
       (mkMonitor (mkSpec 1 ∅ [] []) (Some (mkTicker false (mkChan 0 false)))
          (Some 1%nat))
       Executing Waiting 1 [] [])
  <> Returned
  /\ worker Scenario.env
       (mkSystem Scenario.env
          (mkMonitor (mkSpec 1 ∅ [] []) (Some (mkTicker false (mkChan 0 false)))
             (Some 1%nat))
          Executing Waiting 1 [] [])
     <> Finished.
Proof.
  apply (Stop_never_returns Scenario.env Scenario.methods
           (Scenario.fresh 1)
           (mkMonitor (mkSpec 1 ∅ [] []) (Some (mkTicker true (mkChan 0 false)))
              (Some 1%nat))
           Receiving [] []).
  - reflexivity.
  - eapply rtc_l; [eapply step_fire; reflexivity|].
    eapply rtc_l; [eapply step_receive; reflexivity|].
    eapply rtc_l; [eapply step_stop_ticker; reflexivity|].
    apply rtc_refl.
Defined.

End SchedulerClaims.

(** ** More on the substituted maps and the built request *)

Module MoreTemplating.
Import GoStrings NetUrl NetHttp Props Coverage v1alpha1 v1alpha1.HttpRequest.
Import GoStringsFacts MapFacts.

(** The byte the rewriting loop writes for [c]. *)
Lemma canonicalBytes_cons upper c a :
  exists c',
    canonicalBytes upper (String c a)
    = String c' (canonicalBytes (Ascii.eqb c' "-") a)
    /\ validHeaderFieldByte c' = validHeaderFieldByte c
    /\ (forall b,
           canonicalBytes upper (String c' b)
           = String c' (canonicalBytes (Ascii.eqb c' "-") b))
    /\ (negb (upper && isLower c) && negb (negb upper && isUpper c) = true ->
        c' = c).
Proof.
  destruct upper, c as [[] [] [] [] [] [] [] []];
    (eexists; split; [reflexivity|]; split; [reflexivity|];
     split; [reflexivity|]; try reflexivity; discriminate).
Qed.

Lemma canonicalBytes_valid upper a :
  allBytes validHeaderFieldByte (canonicalBytes upper a)
  = allBytes validHeaderFieldByte a.
Proof.
  revert upper. induction a as [|c a IH]; intros upper; [done|].
  destruct (canonicalBytes_cons upper c a) as (c' & -> & Hv & _).
  simpl. by rewrite Hv, IH.
Qed.

Lemma canonicalBytes_idemp upper a :
  canonicalBytes upper (canonicalBytes upper a) = canonicalBytes upper a.
Proof.
  revert upper. induction a as [|c a IH]; intros upper; [done|].
  destruct (canonicalBytes_cons upper c a) as (c' & -> & _ & -> & _).
  by rewrite IH.
Qed.

(** The quick check of [CanonicalMIMEHeaderKey] only saves work. *)
Lemma quick_check s upper rest :
  allBytes validHeaderFieldByte rest = true ->
  (canonicalBytes upper rest = rest /\ CanonicalMIMEHeaderKey_from s upper rest = s)
  \/ CanonicalMIMEHeaderKey_from s upper rest = canonicalMIMEHeaderKey s.
Proof.
  revert upper. induction rest as [|c rest IH]; intros upper Hv; [by left|].
  simpl in Hv. apply andb_true_iff in Hv as [Hc Hrest].
  cbn [CanonicalMIMEHeaderKey_from]. rewrite Hc. cbn [negb].
  destruct (upper && isLower c) eqn:H1; [by right|].
  destruct (negb upper && isUpper c) eqn:H2; [by right|].
  destruct (canonicalBytes_cons upper c rest) as (c' & Heq & _ & _ & Hsame).
  rewrite Hsame in Heq by (by rewrite H1, H2).
  destruct (IH (Ascii.eqb c "-") Hrest) as [[Hb Hf]|Hf]; [left|by right].
  split; [|done]. by rewrite Heq, Hb.
Qed.

Lemma quick_check_invalid s upper rest :
  allBytes validHeaderFieldByte s = false ->
  CanonicalMIMEHeaderKey_from s upper rest = s.
Proof.
  intros Hs. revert upper. induction rest as [|c rest IH]; intros upper; [done|].
  cbn [CanonicalMIMEHeaderKey_from]. unfold canonicalMIMEHeaderKey.
  rewrite Hs. destruct (negb (validHeaderFieldByte c)); [done|].
  destruct (upper && isLower c); [done|].
  destruct (negb upper && isUpper c); [done|]. apply IH.
Qed.

Lemma CanonicalMIMEHeaderKey_eq s :
  CanonicalMIMEHeaderKey s = canonicalMIMEHeaderKey s.
Proof.
  unfold CanonicalMIMEHeaderKey.
  destruct (allBytes validHeaderFieldByte s) eqn:Hs.
  - destruct (quick_check s true s Hs) as [[Hb ->] | ->]; [|done].
    unfold canonicalMIMEHeaderKey. by rewrite Hs, Hb.
  - rewrite quick_check_invalid by done.
    unfold canonicalMIMEHeaderKey. by rewrite Hs.
Qed.

Lemma CanonicalMIMEHeaderKey_idemp s :
  CanonicalMIMEHeaderKey (CanonicalMIMEHeaderKey s) = CanonicalMIMEHeaderKey s.
Proof.
  rewrite !CanonicalMIMEHeaderKey_eq. unfold canonicalMIMEHeaderKey.
  destruct (allBytes validHeaderFieldByte s) eqn:Hs.
  - by rewrite canonicalBytes_valid, Hs, canonicalBytes_idemp.
  - by rewrite Hs.
Qed.

Lemma collect_nonempty canon k (l : list (string * list string)) :
  collect canon k l <> [] ->
  exists key values, (key, values) ∈ l /\ canon key = k /\ values <> [].
Proof.
  induction l as [|[key values] l IH]; [done|].
  rewrite collect_cons. case_decide as Hk.
  - destruct values as [|x xs].
    + intros (key' & values' & ? & ? & ?)%IH.
      exists key', values'. split; [by right|done].
    + intros _. exists key, (x :: xs). split; [by left|done].
  - intros (key' & values' & ? & ? & ?)%IH.
    exists key', values'. split; [by right|done].
Qed.

(** Whatever order [range] takes, the substituted query parameters are the
    input map with every key without values removed and every value
    replaced. *)
Theorem query_substitution_closed_form E (q : gmap string (list string))
        (replacer : Replacer) :
  replaceQueryParams E q replacer = omap (substituted replacer) q.
Proof.
  apply map_eq. intros k.
  rewrite replaceQueryParams_lookup, lookup_omap.
  by destruct (q !! k) as [[|x xs]|].
Qed.

(** Every key of the substituted headers is in canonical MIME form, is the
    canonical form of an input key that has a value, and holds at least
    one value. *)
Theorem substituted_header_keys_are_canonical E
        (h : gmap string (list string)) (replacer : Replacer)
        (k : string) (vs : list string) :
  replaceHeader E h replacer !! k = Some vs ->
  CanonicalMIMEHeaderKey k = k
  /\ vs <> []
  /\ exists key values,
      h !! key = Some values /\ values <> []
      /\ CanonicalMIMEHeaderKey key = k.
Proof.
  rewrite replaceHeader_lookup.
  destruct (collect CanonicalMIMEHeaderKey k (rangeValues E h)) as [|x xs] eqn:Hc;
    [done|].
  intros [= <-].
  destruct (collect_nonempty CanonicalMIMEHeaderKey k (rangeValues E h))
    as (key & values & Hin & Hk & Hne); [by rewrite Hc|].
  split; [by rewrite <- Hk, CanonicalMIMEHeaderKey_idemp|]. split; [done|].
  exists key, values. split; [|done].
  apply elem_of_map_to_list. by rewrite <- (rangeValues_perm E h).
Qed.

Lemma substituted_header_keys_are_canonical_witness :
  CanonicalMIMEHeaderKey "X-Token" = "X-Token"
  /\ ["v"] <> []
  /\ exists key values,
      Scenario.lowerKey !! key = Some values /\ values <> []
      /\ CanonicalMIMEHeaderKey key = "X-Token".
Proof.
  apply (substituted_header_keys_are_canonical Scenario.env Scenario.lowerKey
           [] "X-Token" ["v"]).
  vm_compute. reflexivity.
Defined.



End MoreTemplating.

(** ** More on one request and on the traces of the two chains *)

Module MoreChains.
Import GoStrings NetUrl NetHttp Props Coverage v1alpha1 v1alpha1.HttpRequest.
Import EngineFacts.

Section WithEnv.
Context (E : Env) (M : VariableMethods).

Lemma parseVariables_length vs resp :
  length (fst (parseVariables M vs resp)) = length vs.
Proof.
  induction vs as [|v vs IH]; [done|]. simpl.
  destruct (ParseFromResponse M v resp) as [v' [e|]]; [done|].
  destruct (parseVariables M vs resp) as [vs' e]. simpl in *. by rewrite IH.
Qed.

Lemma parseVariables_None vs resp vs' :
  parseVariables M vs resp = (vs', None) <->
  Forall2 (fun x x' => ParseFromResponse M x resp = (x', None)) vs vs'.
Proof.
  split; [|apply parseVariables_succeeds].
  revert vs'. induction vs as [|v vs IH]; intros vs'; simpl.
  - intros [= <-]. constructor.
  - destruct (ParseFromResponse M v resp) as [v' [e|]] eqn:Hv; [done|].
    destruct (parseVariables M vs resp) as [vs1 e] eqn:Hvs.
    intros [= <- ->]. constructor; [done|]. by apply IH.
Qed.

(** [handleResponse] succeeds exactly when the status code is accepted and
    every rule succeeds; the request then holds, in order, what each rule
    parsed. *)
Theorem handleResponse_succeeds_iff (r r' : HttpRequest.t) (resp : Response) :
  handleResponse M r (Some resp) = (r', None) <->
  StatusCode resp ∈ ExpectedResponseCodes r
  /\ exists vs,
      Forall2 (fun x x' => ParseFromResponse M x resp = (x', None))
        (VariablesFromResponse r) vs
      /\ r' = setVariablesFromResponse r vs.
Proof.
  unfold handleResponse. rewrite <- containsInt_spec.
  destruct (containsInt _ _); simpl; [|split; [done|by intros [? _]]].
  unfold extractVariables. case_decide as Hlen.
  - destruct (VariablesFromResponse r) as [|v vs] eqn:Hvars; [|done].
    split.
    + intros [= <-]. split; [done|]. exists []. split; [constructor|].
      by rewrite <- Hvars, set_same.
    + intros (_ & vs & Hvs & ->). inversion Hvs; subst.
      by rewrite <- Hvars, set_same.
  - destruct (parseVariables M _ resp) as [vs e] eqn:Hp. split.
    + intros [= <- ->]. split; [done|]. exists vs. split; [|done].
      by apply parseVariables_None.
    + intros (_ & vs' & Hvs & ->). apply parseVariables_None in Hvs.
      rewrite Hvs in Hp. by injection Hp as <- <-.
Qed.

Lemma handleResponse_length r resp :
  length (VariablesFromResponse (fst (handleResponse M r resp)))
  = length (VariablesFromResponse r).
Proof.
  unfold handleResponse. destruct resp as [resp|]; [|done].
  destruct (negb _); [done|]. unfold extractVariables.
  case_decide; [done|].
  pose proof (parseVariables_length (VariablesFromResponse r) resp) as Hlen.
  by destruct (parseVariables M _ resp).
Qed.

(** [Do] leaves a request as it was but for the values of its own
    variables, of which there are as many as before. *)
Theorem Do_changes_only_the_parsed_values (r : HttpRequest.t) (w : World E) :
  snd (fst (Do E M r w))
  = setVariablesFromResponse r
      (VariablesFromResponse (snd (fst (Do E M r w))))
  /\ length (VariablesFromResponse (snd (fst (Do E M r w))))
     = length (VariablesFromResponse r).
Proof.
  split.
  - destruct (Do E M r w) as [[w' r'] e] eqn:HDo. by apply Do_frame in HDo.
  - unfold Do. destruct (BuildRequest E M r); [done|].
    destruct (ParseDuration E (Timeout r)); [|done].
    destruct (client_Do E w _ _) as [w' [msg|resp]]; [done|].
    pose proof (handleResponse_length r (Some resp)) as Hlen.
    by destruct (handleResponse M r (Some resp)).
Qed.

Lemma Do_unparsable_timeout r w :
  ParseDuration E (Timeout r) = None ->
  exists e, Do E M r w = (w, r, Some e).
Proof.
  intros H. unfold Do. destruct (BuildRequest E M r); [by eexists|].
  rewrite H. by eexists.
Qed.

(** A request whose timeout does not parse fails without a call of the
    client: a cleanup chain of such requests leaves the world as it was
    and fails at every step, and a monitoring chain that starts with one
    ends at once. *)
Theorem unparsable_timeout_reaches_no_server
        (requests : list HttpRequest.t) (st : RunState E) :
  Forall (fun r => ParseDuration E (Timeout r) = None) requests ->
  world E (snd (runCleanup E M requests st)) = world E st
  /\ Forall failed (fst (runCleanup E M requests st))
  /\ length (fst (runCleanup E M requests st)) = length requests
  /\ world E (snd (runRequests E M requests st)) = world E st
  /\ (length (fst (runRequests E M requests st)) <= 1)%nat.
Proof.
  intros Hall. split; [|split; [|split]].
  1-3: revert st; induction Hall as [|r requests Hr _ IH]; intros st; [done|];
    destruct (Do_unparsable_timeout (attach M r (store E st)) (world E st) Hr)
      as [e HDo];
    rewrite (runCleanup_cons E M _ _ _ _ _ _ HDo);
    specialize (IH (mkRunState E (world E st)
                      (log E st
                       ++ [LogInfo 2 "executing cleanup request" (Name r);
                           LogError e "failed to complete cleanup request"
                             (Name r)])
                      (store E st)));
    destruct (runCleanup E M requests _) as [steps st']; simpl in *.
  - done.
  - by constructor.
  - by rewrite IH.
  - destruct Hall as [|r requests Hr _]; [simpl; split; [done|lia]|].
    destruct (Do_unparsable_timeout (attach M r (store E st)) (world E st) Hr)
      as [e HDo].
    rewrite (runRequests_cons_fail E M _ _ _ _ _ _ HDo). simpl.
    split; [done|lia].
Qed.

(** The monitoring chain executes the requests in order from the first: an
    executed request that is not the last executed one succeeded, and a
    request is left out only behind a failed one. *)
Theorem monitoring_trace_is_a_prefix
        (requests : list HttpRequest.t) (st : RunState E) :
  (fun x => Name (request x)) <$> fst (runRequests E M requests st)
  = take (length (fst (runRequests E M requests st))) (Name <$> requests)
  /\ (length (fst (runRequests E M requests st)) <= length requests)%nat
  /\ allSucceeded
       (take (length (fst (runRequests E M requests st)) - 1)
          (fst (runRequests E M requests st)))
  /\ ((length (fst (runRequests E M requests st)) < length requests)%nat ->
      exists x, last (fst (runRequests E M requests st)) = Some x /\ failed x).
Proof.
  revert st. induction requests as [|r requests IH]; intros st.
  { repeat split; [done|constructor|simpl; lia]. }
  destruct (Do E M (attach M r (store E st)) (world E st))
    as [[w r'] [e|]] eqn:HDo.
  - rewrite (runRequests_cons_fail E M _ _ _ _ _ _ HDo). simpl.
    apply Do_attached in HDo as [_ ->].
    repeat split; [lia|constructor|]. intros _. by eexists.
  - rewrite (runRequests_cons_ok E M _ _ _ _ _ HDo).
    specialize (IH (mkRunState E w
                      (log E st ++ [LogInfo 2 "executing request" (Name r)])
                      (store E st ++ VariablesFromResponse r'))).
    destruct (runRequests E M requests _) as [steps st'].
    cbn [fst snd] in IH |- *. destruct IH as (Hnames & Hlen & Hok & Hlast).
    apply Do_attached in HDo as [_ Hname].
    split; [|split; [|split]].
    + rewrite !fmap_cons. cbn [length take request].
      by rewrite Hname, Hnames.
    + simpl. lia.
    + cbn [length]. rewrite Nat.sub_succ, Nat.sub_0_r.
      destruct steps as [|x steps]; [constructor|].
      cbn [length] in Hok. rewrite Nat.sub_succ, Nat.sub_0_r in Hok.
      cbn [take]. by constructor.
    + cbn [length]. intros Hlt. destruct Hlast as (x & Hx & Hfail); [lia|].
      exists x. split; [|done]. destruct steps; [done|]. by rewrite last_cons, Hx.
Qed.

Lemma runRequests_log requests st :
  log E (snd (runRequests E M requests st))
  = log E st
    ++ traceLog "executing request" "failed to complete request"
         (fst (runRequests E M requests st)).
Proof.
  revert st. induction requests as [|r requests IH]; intros st.
  { simpl. by rewrite app_nil_r. }
  destruct (Do E M (attach M r (store E st)) (world E st))
    as [[w r'] [e|]] eqn:HDo.
  - rewrite (runRequests_cons_fail E M _ _ _ _ _ _ HDo).
    apply Do_attached in HDo as [_ Hname].
    unfold traceLog, stepLog. cbn. by rewrite Hname.
  - rewrite (runRequests_cons_ok E M _ _ _ _ _ HDo).
    specialize (IH (mkRunState E w
                      (log E st ++ [LogInfo 2 "executing request" (Name r)])
                      (store E st ++ VariablesFromResponse r'))).
    destruct (runRequests E M requests _) as [steps st'].
    cbn [fst snd log] in IH |- *. apply Do_attached in HDo as [_ Hname].
    rewrite IH, <- app_assoc. f_equal.
    unfold traceLog. rewrite fmap_cons. cbn [concat].
    unfold stepLog at 1. cbn. by rewrite Hname.
Qed.

Lemma runCleanup_log requests st :
  log E (snd (runCleanup E M requests st))
  = log E st
    ++ traceLog "executing cleanup request"
         "failed to complete cleanup request"
         (fst (runCleanup E M requests st)).
Proof.
  revert st. induction requests as [|r requests IH]; intros st.
  { simpl. by rewrite app_nil_r. }
  destruct (Do E M (attach M r (store E st)) (world E st))
    as [[w r'] e] eqn:HDo.
  rewrite (runCleanup_cons E M _ _ _ _ _ _ HDo).
  match goal with
  | |- context [runCleanup E M requests ?s] => specialize (IH s)
  end.
  destruct (runCleanup E M requests _) as [steps st'].
  cbn [fst snd log] in IH |- *. apply Do_attached in HDo as [_ Hname].
  rewrite IH, <- app_assoc. f_equal.
  unfold traceLog. rewrite fmap_cons. cbn [concat].
  unfold stepLog at 1. cbn. rewrite Hname. by destruct e.
Qed.

(** What one tick logs: what the logger held before, then for every
    executed monitoring request its announcement and, behind it, its
    failure if it failed, then the same for every cleanup request; nothing
    else. *)
Theorem tick_log (h : HttpMonitorSpec) (w : World E) (logger : list LogEntry) :
  log E (final E (executeRequests E M h w logger))
  = logger
    ++ traceLog "executing request" "failed to complete request"
         (monitoring E (executeRequests E M h w logger))
    ++ traceLog "executing cleanup request" "failed to complete cleanup request"
         (cleanup E (executeRequests E M h w logger)).
Proof.
  unfold executeRequests.
  pose proof (runRequests_log (Requests h)
                (mkRunState E w logger (seedVariables E h))) as Hm.
  destruct (runRequests E M (Requests h) _) as [steps st].
  pose proof (runCleanup_log (Cleanup h) st) as Hc.
  destruct (runCleanup E M (Cleanup h) st) as [csteps st'].
  simpl in *. by rewrite Hc, Hm, <- app_assoc.
Qed.

(** A tick whose monitoring requests all succeed runs every monitoring and
    every cleanup request, and its cleanup chain works on the seed
    followed by everything the monitoring requests extracted. *)
Theorem successful_tick_runs_everything
        (h : HttpMonitorSpec) (w : World E) (logger : list LogEntry) :
  allSucceeded (monitoring E (executeRequests E M h w logger)) ->
  length (monitoring E (executeRequests E M h w logger)) = length (Requests h)
  /\ length (cleanup E (executeRequests E M h w logger)) = length (Cleanup h)
  /\ store E (afterMonitoring E (executeRequests E M h w logger))
     = seedVariables E h
       ++ extracted (monitoring E (executeRequests E M h w logger)).
Proof.
  unfold executeRequests.
  destruct (runRequests E M (Requests h) _) as [steps st] eqn:Hrun.
  destruct (runCleanup E M (Cleanup h) st) as [csteps st'] eqn:Hclean.
  simpl. intros Hok.
  destruct (runRequests_succeeded E M _ _ _ _ Hrun Hok) as [Hlen Hstore].
  by apply runCleanup_all in Hclean as (? & _).
Qed.

(** The store a request was given in an earlier tick plays no part in a
    later one: both chains run the same whatever stores the requests
    still carry. *)
Theorem earlier_stores_are_ignored
        (requests : list HttpRequest.t) (st : RunState E)
        (f : HttpRequest.t -> VariableList) :
  runRequests E M ((fun r => setAvailableVariables r (f r)) <$> requests) st
  = runRequests E M requests st
  /\ runCleanup E M ((fun r => setAvailableVariables r (f r)) <$> requests) st
     = runCleanup E M requests st.
Proof.
  split; revert st; induction requests as [|r requests IH]; intros st; try done;
    rewrite fmap_cons;
    destruct (Do E M (attach M r (store E st)) (world E st))
      as [[w r'] e] eqn:HDo.
  - destruct e as [e|].
    + rewrite (runRequests_cons_fail E M r _ _ _ _ _ HDo).
      by rewrite (runRequests_cons_fail E M (setAvailableVariables r (f r))
                    _ _ _ _ _ HDo).
    + rewrite (runRequests_cons_ok E M r _ _ _ _ HDo).
      rewrite (runRequests_cons_ok E M (setAvailableVariables r (f r))
                 _ _ _ _ HDo).
      simpl Name. by rewrite IH.
  - rewrite (runCleanup_cons E M r _ _ _ _ _ HDo).
    rewrite (runCleanup_cons E M (setAvailableVariables r (f r)) _ _ _ _ _ HDo).
    simpl Name. by rewrite IH.
Qed.

End WithEnv.

Lemma unparsable_timeout_reaches_no_server_witness :
  world Scenario.env
    (snd (runCleanup Scenario.env Scenario.methods
            [late]
            Scenario.seeded))
  = world Scenario.env Scenario.seeded
  /\ Forall failed
       (fst (runCleanup Scenario.env Scenario.methods
               [late]
               Scenario.seeded))
  /\ length
       (fst (runCleanup Scenario.env Scenario.methods
               [late]
               Scenario.seeded))
     = length [late]
  /\ world Scenario.env
       (snd (runRequests Scenario.env Scenario.methods
               [late]
               Scenario.seeded))
     = world Scenario.env Scenario.seeded
  /\ (length
        (fst (runRequests Scenario.env Scenario.methods
                [late]
                Scenario.seeded))
      <= 1)%nat.
Proof.
  apply (unparsable_timeout_reaches_no_server Scenario.env Scenario.methods).
  repeat constructor.
Defined.

Lemma successful_tick_runs_everything_witness :
  length (monitoring Scenario.env (Scenario.run Scenario.cleaning2))
  = length (Requests Scenario.cleaning2)
  /\ length (cleanup Scenario.env (Scenario.run Scenario.cleaning2))
     = length (Cleanup Scenario.cleaning2)
  /\ store Scenario.env
       (afterMonitoring Scenario.env (Scenario.run Scenario.cleaning2))
     = seedVariables Scenario.env Scenario.cleaning2
       ++ extracted (monitoring Scenario.env (Scenario.run Scenario.cleaning2)).
Proof.
  apply (successful_tick_runs_everything Scenario.env Scenario.methods
           Scenario.cleaning2 [] []).
  vm_compute. repeat constructor.
Defined.

End MoreChains.

(** ** More on the scheduler *)

Module MoreScheduler.
Import v1alpha1 Scheduler Coverage.

(** [Start] returns only for a monitor that was never started and has a
    positive period, and leaves a monitor that cannot be started again,
    neither as it is nor after [Stop] has turned its ticker off: both
    panic. *)
Theorem a_started_monitor_cannot_be_started_again
        (h h' : HttpMonitor) (g : Worker) :
  Start h = Return (h', g) ->
  ticker h = None
  /\ 0 < Period (Spec h)
  /\ Spec h' = Spec h
  /\ Start h' = Panic "tried to start an already started HttpMonitor"
  /\ (forall h'',
         Stop_ticker h' = Return h'' ->
         Start h'' = Panic "tried to start an already started HttpMonitor").
Proof.
  unfold Start, NewTicker. destruct (ticker h) eqn:Ht; [done|].
  destruct (Z.leb_spec (Period (Spec h)) 0); [done|]. intros [= <- <-].
  repeat split; [lia|]. unfold Stop_ticker. simpl. by intros h'' [= <-].
Qed.

Lemma a_started_monitor_cannot_be_started_again_witness :
  ticker (Scenario.fresh 1) = None
  /\ 0 < Period (Spec (Scenario.fresh 1))
  /\ Spec (mkMonitor (mkSpec 1 ∅ [] []) (Some (mkTicker true (mkChan 0 false)))
             (Some 1%nat))
     = Spec (Scenario.fresh 1)
  /\ Start (mkMonitor (mkSpec 1 ∅ [] [])
              (Some (mkTicker true (mkChan 0 false))) (Some 1%nat))
     = Panic "tried to start an already started HttpMonitor"
  /\ (forall h'',
         Stop_ticker (mkMonitor (mkSpec 1 ∅ [] [])
                        (Some (mkTicker true (mkChan 0 false))) (Some 1%nat))
         = Return h'' ->
         Start h'' = Panic "tried to start an already started HttpMonitor").
Proof.
  apply (a_started_monitor_cannot_be_started_again (Scenario.fresh 1) _
           Receiving).
  reflexivity.
Defined.

Section Interleaving.
Context (E : Env) (M : VariableMethods).



Lemma halted_step (s s' : System E) :
  halted (monitor E s) -> step E M s s' ->
  halted (monitor E s')
  /\ (begun E s' + pending (monitor E s')
      = begun E s + pending (monitor E s))%nat.
Proof.
  intros (t & Ht & Hoff) Hstep. unfold halted, pending.
  inversion Hstep; subst; simpl.
  - rewrite Ht in *. simplify_eq. unfold Ticker_fire. rewrite Hoff.
    split; [by eexists|done].
  - rewrite Ht in *. simplify_eq. simpl. split; [by eexists|lia].
  - rewrite Ht. split; [by eexists|done].
  - rewrite Ht. split; [by eexists|done].
  - unfold Stop_ticker in *. rewrite Ht in *. simplify_eq. simpl.
    split; [by eexists|done].
  - rewrite Ht. split; [by eexists|done].
Qed.


(** Once the ticker is off no tick is sent any more: the ticker stays off,
    and the ticks that have begun and the tick still buffered add up to
    what they were, so only a tick that was already buffered can still
    begin. *)
Theorem no_tick_is_sent_after_the_ticker_is_off (s1 s2 : System E) :
  halted (monitor E s1) ->
  rtc (step E M) s1 s2 ->
  halted (monitor E s2)
  /\ (begun E s2 + pending (monitor E s2)
      = begun E s1 + pending (monitor E s1))%nat.
Proof.
  intros Hoff Hsteps.
  apply (@rtc_ind_r _ (step E M)
           (fun s => halted (monitor E s)
                     /\ (begun E s + pending (monitor E s)
                         = begun E s1 + pending (monitor E s1))%nat)
           s1); [done| |done].
  intros y z _ Hstep [Hy Hsum].
  destruct (halted_step y z Hy Hstep) as [Hz Hsum']. split; [done|lia].
Qed.

End Interleaving.


Lemma no_tick_is_sent_after_the_ticker_is_off_witness :
  halted
    (monitor Scenario.env
       (mkSystem Scenario.env
          (mkMonitor (mkSpec 1 ∅ [] [])
             (Some (mkTicker false (mkChan 0 false))) (Some 1%nat))
          Executing Waiting 1 [] []))
  /\ (begun Scenario.env
        (mkSystem Scenario.env
           (mkMonitor (mkSpec 1 ∅ [] [])
              (Some (mkTicker false (mkChan 0 false))) (Some 1%nat))
           Executing Waiting 1 [] [])
      + pending
          (monitor Scenario.env
             (mkSystem Scenario.env
                (mkMonitor (mkSpec 1 ∅ [] [])
                   (Some (mkTicker false (mkChan 0 false))) (Some 1%nat))
                Executing Waiting 1 [] []))
      = begun Scenario.env
          (mkSystem Scenario.env
             (mkMonitor (mkSpec 1 ∅ [] [])
                (Some (mkTicker false (mkChan 1 false))) (Some 1%nat))
             Receiving Waiting 0 [] [])
        + pending
            (monitor Scenario.env
               (mkSystem Scenario.env
                  (mkMonitor (mkSpec 1 ∅ [] [])
                     (Some (mkTicker false (mkChan 1 false))) (Some 1%nat))
                  Receiving Waiting 0 [] [])))%nat.
Proof.
  apply (no_tick_is_sent_after_the_ticker_is_off Scenario.env Scenario.methods).
  - eexists. split; reflexivity.
  - eapply rtc_l; [eapply step_fire; reflexivity|].
    eapply rtc_l; [eapply step_receive; reflexivity|].
    apply rtc_refl.
Defined.

End MoreScheduler.
